(** * PayPal billing integration of fxa-auth-server

    A shallow embedding of [lib/payments/paypal-client.ts] (the NVP codec and
    the RPC client) and of the reconciliation helper exercised by
    [test/local/payments/paypal.js], with the properties its specification
    states about them.

    Conventions of the embedding.
    - A JavaScript string is a [string]: the sequence of its UTF-8 bytes.
      The codec only inspects ASCII characters, and percent-encoding works
      on the UTF-8 bytes, so nothing is lost for well-formed strings.
    - A JavaScript object is the list of its own enumerable properties in
      insertion order ([JS.obj]); [JS.entries] gives the order in which
      [Object.keys] and [Object.entries] enumerate them.
    - A JavaScript array is a finite map of properties together with its
      [length] ([JS.array]), so that holes exist.
    - Asynchronous code is written in a state-and-error monad over the log
      of the HTTP requests sent so far; back-off delays are not modelled. *)

From Stdlib Require Import String Ascii List NArith ZArith QArith Lia Bool.
From Stdlib Require Import DecimalString DecimalN.
From stdpp Require Import base decidable option list gmap strings.

Import ListNotations.
Local Open Scope string_scope.
Local Open Scope N_scope.

(** ** The fragment of JavaScript the client relies on *)

Module JS.

(** *** Characters and strings *)

Definition code (c : ascii) : N := N_of_ascii c.

Definition is_upper (c : ascii) : bool := (65 <=? code c) && (code c <=? 90).
Definition is_lower (c : ascii) : bool := (97 <=? code c) && (code c <=? 122).
Definition is_digit (c : ascii) : bool := (48 <=? code c) && (code c <=? 57).

Fixpoint all_chars (p : ascii -> bool) (s : string) : bool :=
  match s with
  | EmptyString => true
  | String c r => p c && all_chars p r
  end.

Definition nonempty (s : string) : bool :=
  match s with EmptyString => false | String _ _ => true end.

(** [span p s] is the longest prefix of [s] whose characters satisfy [p],
    and what follows it: a greedy [[...]*]. *)
Fixpoint span (p : ascii -> bool) (s : string) : string * string :=
  match s with
  | EmptyString => (EmptyString, EmptyString)
  | String c r =>
      if p c then let '(a, b) := span p r in (String c a, b)
      else (EmptyString, s)
  end.

(** *** Numbers

    The only numbers the client computes are the results of [parseInt] on a
    string of decimal digits: non-negative integers rounded to the nearest
    IEEE double (ties to even), or [Infinity]. *)

Inductive num : Type :=
  | Finite (n : N)
  | Infinity.

Definition digit_value (c : ascii) : N := code c - 48.

Fixpoint digits_value (acc : N) (s : string) : N :=
  match s with
  | EmptyString => acc
  | String c r => digits_value (10 * acc + digit_value c) r
  end.

Definition round_to_double (n : N) : num :=
  let bits := N.size n in
  if bits <=? 53 then Finite n
  else
    let k := bits - 53 in
    let q := N.shiftr n k in
    let r := N.land n (N.ones k) in
    let half := N.shiftl 1 (k - 1) in
    let q' := if r <? half then q
              else if half <? r then q + 1
              else if N.even q then q else q + 1 in
    let m := N.shiftl q' k in
    if 1024 <? N.size m then Infinity else Finite m.

(** [parseInt(s)] for [s] a non-empty string of decimal digits. *)
Definition parseInt (s : string) : num := round_to_double (digits_value 0 s).

(** An array index is an integer below 2^32 - 1; assignments at any other
    number create an ordinary property and leave [length] alone. *)
Definition is_array_index (i : num) : bool :=
  match i with
  | Finite n => n <? 4294967295
  | Infinity => false
  end.

(** *** Objects *)

Definition obj (V : Type) : Type := list (string * V).

Definition empty_obj {V} : obj V := [].

Fixpoint get {V} (o : obj V) (k : string) : option V :=
  match o with
  | [] => None
  | (k', v) :: r => if String.eqb k' k then Some v else get r k
  end.

(** Definition of an own data property: what [o[k] = v] does on an object
    whose prototype chain has no setter for [k], and what an object literal
    or a spread does for every key. *)
Fixpoint define {V} (o : obj V) (k : string) (v : V) : obj V :=
  match o with
  | [] => [(k, v)]
  | (k', v') :: r =>
      if String.eqb k' k then (k', v) :: r else (k', v') :: define r k v
  end.

(** [o[k] = v] on an object created by [{}], for [v] a string, an array or
    another object: [Object.prototype] has one setter, [__proto__], which
    creates no own property (it ignores a string and re-parents [o] to an
    array or object). Every other key is defined as an own property. *)
Definition assign {V} (o : obj V) (k : string) (v : V) : obj V :=
  if String.eqb k "__proto__" then o else define o k v.

(** Keys that are canonical array indices are enumerated first, in
    ascending numeric order; the others follow in insertion order. *)
Definition index_key (k : string) : option N :=
  match k with
  | EmptyString => None
  | String c r =>
      if all_chars is_digit k && (negb (Ascii.eqb c "0") || negb (nonempty r))
      then let n := digits_value 0 k in
           if n <? 4294967295 then Some n else None
      else None
  end.

Fixpoint insert_sorted {V} (n : N) (kv : string * V)
    (l : list (N * (string * V))) : list (N * (string * V)) :=
  match l with
  | [] => [(n, kv)]
  | (m, kv') :: r =>
      if n <? m then (n, kv) :: l else (m, kv') :: insert_sorted n kv r
  end.

Fixpoint index_entries {V} (o : obj V) : list (N * (string * V)) :=
  match o with
  | [] => []
  | (k, v) :: r =>
      match index_key k with
      | Some n => insert_sorted n (k, v) (index_entries r)
      | None => index_entries r
      end
  end.

Fixpoint named_entries {V} (o : obj V) : obj V :=
  match o with
  | [] => []
  | (k, v) :: r =>
      match index_key k with
      | Some _ => named_entries r
      | None => (k, v) :: named_entries r
      end
  end.

(** [Object.entries(o)]. *)
Definition entries {V} (o : obj V) : list (string * V) :=
  map snd (index_entries o) ++ named_entries o.

(** [Object.keys(o)]. *)
Definition keys {V} (o : obj V) : list string := map fst (entries o).

(** The spread [{...a, ...b}]: the own properties of [b] are defined on a
    copy of [a], those of the same name being replaced. *)
Definition spread {V} (a b : obj V) : obj V :=
  fold_left (fun o kv => define o (fst kv) (snd kv)) (entries b) a.

(** *** Arrays

    An array is an object with a [length]: writing at an array index [i]
    raises [length] to at least [i + 1]; the positions below [length] that
    hold no property are its holes. *)

#[global] Instance num_eq_dec : EqDecision num.
Proof. solve_decision. Defined.

#[global] Instance num_countable : Countable num :=
  inj_countable'
    (fun i => match i with Finite n => Some n | Infinity => None end)
    (fun o => match o with Some n => Finite n | None => Infinity end)
    (fun i => match i with Finite _ => eq_refl | Infinity => eq_refl end).

Record array (V : Type) : Type := mk_array {
  arr_props : gmap num V;
  arr_length : N
}.
Arguments mk_array {V} _ _.
Arguments arr_props {V} _.
Arguments arr_length {V} _.

Definition empty_array {V} : array V := mk_array ∅ 0.

(** [a[i]], [undefined] being [None]. *)
Definition arr_get {V} (a : array V) (i : num) : option V := arr_props a !! i.

(** The [length] after a write at [i]. *)
Definition grow (len : N) (i : num) : N :=
  match i with
  | Finite n => if is_array_index i then N.max len (n + 1) else len
  | Infinity => len
  end.

(** [a[i] = v]. *)
Definition arr_set {V} (a : array V) (i : num) (v : V) : array V :=
  mk_array (<[i := v]> (arr_props a)) (grow (arr_length a) i).

(** The elements of the array, position by position: what iteration,
    [JSON.stringify] and deep equality see. *)
Definition arr_elements {V} (a : array V) : list (option V) :=
  map (fun i : nat => arr_props a !! Finite (N.of_nat i))
      (seq 0 (N.to_nat (arr_length a))).

(** The array literal [[v0, v1, ...]]. *)
Definition arr_of_list {V} (l : list V) : array V :=
  fold_left (fun a v => arr_set a (Finite (arr_length a)) v) l empty_array.

End JS.

(** ** Node's [querystring] module

    [stringify] and [parse] as the client calls them: separator [&],
    assignment [=], the default [escape] and [unescape], and no limit on the
    number of keys ([maxKeys: 0]). *)

Module QueryString.

(** A value that is not an array; [stringify] renders a string as itself, a
    number in decimal, a boolean as [true] or [false] and everything else
    ([null], [undefined], nested objects) as the empty string. The numbers
    the client sends are non-negative integers. *)
Inductive prim : Type :=
  | PStr (s : string)
  | PNum (n : N)
  | PBool (b : bool)
  | POther.

Inductive value : Type :=
  | Prim (p : prim)
  | Arr (l : list prim).

(** What [parse] produces for a key: a string, or the array of the strings
    of its repeated occurrences. *)
Inductive parsed : Type :=
  | QStr (s : string)
  | QArr (l : list string).

Definition decimal (n : N) : string := NilEmpty.string_of_uint (N.to_uint n).

Definition stringifyPrimitive (p : prim) : string :=
  match p with
  | PStr s => s
  | PNum n => decimal n
  | PBool true => "true"
  | PBool false => "false"
  | POther => EmptyString
  end.

(** Characters [escape] leaves alone: letters, digits and [!'()*-._~]. *)
Definition noEscape (c : ascii) : bool :=
  JS.is_upper c || JS.is_lower c || JS.is_digit c ||
  existsb (Ascii.eqb c) ["!"; "'"; "("; ")"; "*"; "-"; "."; "_"; "~"]%char.

Definition hex_digit (n : N) : ascii :=
  ascii_of_N (if n <? 10 then 48 + n else 55 + n).

Definition unhex (c : ascii) : option N :=
  let n := JS.code c in
  if JS.is_digit c then Some (n - 48)
  else if (65 <=? n) && (n <=? 70) then Some (n - 55)
  else if (97 <=? n) && (n <=? 102) then Some (n - 87)
  else None.

(** [querystring.escape]. *)
Fixpoint escape (s : string) : string :=
  match s with
  | EmptyString => EmptyString
  | String c r =>
      if noEscape c then String c (escape r)
      else String "%" (String (hex_digit (JS.code c / 16))
                         (String (hex_digit (JS.code c mod 16)) (escape r)))
  end.

(** [querystring.unescape]: every [%] followed by two hexadecimal digits is
    the byte they denote; any other character stands for itself. (Decoded
    bytes that are not UTF-8 are kept as they are; Node would put U+FFFD in
    their place.) *)
Fixpoint unescape (s : string) : string :=
  match s with
  | EmptyString => EmptyString
  | String c r =>
      match r with
      | String h1 (String h2 r') =>
          match Ascii.eqb c "%", unhex h1, unhex h2 with
          | true, Some a, Some b =>
              String (ascii_of_N (16 * a + b)) (unescape r')
          | _, _, _ => String c (unescape r)
          end
      | _ => String c (unescape r)
      end
  end.

(** The text of one key: [ks = escape(k) + '='] followed by each value. *)
Definition fields_of (k : string) (v : value) : list string :=
  let ks := escape k +:+ "=" in
  match v with
  | Prim p => [ks +:+ escape (stringifyPrimitive p)]
  | Arr l => map (fun p => ks +:+ escape (stringifyPrimitive p)) l
  end.

(** [if (fields) fields += sep; fields += field]. *)
Definition add_field (fields field : string) : string :=
  if JS.nonempty fields then fields +:+ "&" +:+ field else fields +:+ field.

(** [querystring.stringify(obj)]: the properties in the order of
    [Object.keys], an empty array writing nothing. *)
Definition stringify (o : JS.obj value) : string :=
  fold_left
    (fun fields kv => fold_left add_field (fields_of (fst kv) (snd kv)) fields)
    (JS.entries o) EmptyString.

(** Splitting at every [&]. *)
Fixpoint split_amp (s : string) : list string :=
  match s with
  | EmptyString => [EmptyString]
  | String c r =>
      if Ascii.eqb c "&" then EmptyString :: split_amp r
      else match split_amp r with
           | [] => [String c EmptyString]
           | seg :: segs => String c seg :: segs
           end
  end.

(** Cutting a segment at its first [=], when it has one. *)
Fixpoint cut_eq (s : string) : option (string * string) :=
  match s with
  | EmptyString => None
  | String c r =>
      if Ascii.eqb c "=" then Some (EmptyString, r)
      else match cut_eq r with
           | Some (k, v) => Some (String c k, v)
           | None => None
           end
  end.

Fixpoint plus_to_space (s : string) : string :=
  match s with
  | EmptyString => EmptyString
  | String c r =>
      String (if Ascii.eqb c "+" then " "%char else c) (plus_to_space r)
  end.

Definition decode (s : string) : string := unescape (plus_to_space s).

(** [addKeyValue]: the first occurrence of a key stores a string, the second
    turns it into an array, the later ones extend that array. *)
Definition addKeyValue (o : JS.obj parsed) (key val : string) : JS.obj parsed :=
  match JS.get o key with
  | None => JS.define o key (QStr val)
  | Some (QStr cur) => JS.define o key (QArr [cur; val])
  | Some (QArr l) => JS.define o key (QArr (l ++ [val]))
  end.

Definition add_segment (o : JS.obj parsed) (seg : string) : JS.obj parsed :=
  match cut_eq seg with
  | Some (k, v) => addKeyValue o (decode k) (decode v)
  | None => if JS.nonempty seg then addKeyValue o (decode seg) EmptyString else o
  end.

(** [querystring.parse(qs, undefined, undefined, { maxKeys: 0 })]; the
    object it returns has no prototype, so every key is an own property. *)
Definition parse (qs : string) : JS.obj parsed :=
  fold_left add_segment (split_amp qs) JS.empty_obj.

End QueryString.

(** ** Transport: [superagent] and [p-retry]

    A computation runs against a [network], which decides how each request is
    answered given the requests sent before it, and threads the log of the
    requests sent. It ends with a value or with a thrown error. *)

Module Net.

Record request : Type := mk_request {
  req_url : string;
  req_headers : list (string * string);
  req_body : string
}.

(** The response text, or the error [superagent] rejects with when the
    request does not get through or the status is an error. *)
Inductive outcome : Type :=
  | Responds (text : string)
  | Fails (reason : string).

Definition network : Type := list request -> request -> outcome.

Inductive result (E A : Type) : Type :=
  | Ok (a : A)
  | Thrown (e : E).
Arguments Ok {E A} _.
Arguments Thrown {E A} _.

Definition io (E A : Type) : Type :=
  network -> list request -> result E A * list request.

Definition ret {E A} (a : A) : io E A := fun _ log => (Ok a, log).

Definition throw {E A} (e : E) : io E A := fun _ log => (Thrown e, log).

Definition bind {E A B} (m : io E A) (f : A -> io E B) : io E B :=
  fun net log =>
    match m net log with
    | (Ok a, log') => f a net log'
    | (Thrown e, log') => (Thrown e, log')
    end.

(** [await superagent.post(url).set(...).send(body)], resolving to the text
    of the response. *)
Definition post {E} (transport_error : string -> E) (url : string)
    (headers : list (string * string)) (body : string) : io E string :=
  fun net log =>
    let r := mk_request url headers body in
    match net log r with
    | Responds text => (Ok text, (log ++ [r])%list)
    | Fails reason => (Thrown (transport_error reason), (log ++ [r])%list)
    end.

(** [pRetry(attempt, { retries })]: [attempt] is run again after each
    failure, [retries] times at most, and the last error is thrown when the
    retries are used up. *)
Fixpoint pRetry {E A} (attempt : io E A) (retries : nat) : io E A :=
  fun net log =>
    match attempt net log with
    | (Ok a, log') => (Ok a, log')
    | (Thrown e, log') =>
        match retries with
        | O => (Thrown e, log')
        | S r => pRetry attempt r net log'
        end
    end.

(** The number of retries [p-retry] makes when it is given no options. *)
Definition pRetry_default_retries : nat := 10.

End Net.

Notation "'let*' x ':=' m 'in' f" := (Net.bind m (fun x => f))
  (at level 10, x name, m at level 100, f at level 200).

(** ** [lib/payments/paypal-client.ts] *)

Module PayPalClient.

Import QueryString.

Definition PAYPAL_SANDBOX_BASE := "https://api-3t.sandbox.paypal.com".
Definition PAYPAL_SANDBOX_IPN_BASE := "https://ipnpb.sandbox.paypal.com".
Definition PAYPAL_LIVE_BASE := "https://api-3t.paypal.com".
Definition PAYPAL_LIVE_IPN_BASE := "https://ipnpb.paypal.com".
Definition PAYPAL_NVP_ROUTE := "/nvp".
Definition PAYPAL_IPN_ROUTE := "/cgi-bin/webscr".
Definition PAYPAL_SANDBOX_API := PAYPAL_SANDBOX_BASE +:+ PAYPAL_NVP_ROUTE.
Definition PAYPAL_LIVE_API := PAYPAL_LIVE_BASE +:+ PAYPAL_NVP_ROUTE.
Definition PAYPAL_SANDBOX_IPN := PAYPAL_SANDBOX_IPN_BASE +:+ PAYPAL_IPN_ROUTE.
Definition PAYPAL_LIVE_IPN := PAYPAL_LIVE_IPN_BASE +:+ PAYPAL_IPN_ROUTE.
Definition PLACEHOLDER_URL := "https://www.paypal.com/checkoutnow/error".
Definition PAYPAL_VERSION := "204".

(** [L_LIST = /L_([A-Z]+)(\d+)$/]. [L_LIST_here s] matches the pattern at
    the start of [s]: the two classes are disjoint, so the greedy reading of
    each group is the only one. [L_LIST_match key] is [key.match(L_LIST)]:
    the leftmost position where the pattern matches, with its two groups. *)
Definition L_LIST_here (s : string) : option (string * string) :=
  match s with
  | String c1 (String c2 r) =>
      if Ascii.eqb c1 "L" && Ascii.eqb c2 "_" then
        let '(name, r1) := JS.span JS.is_upper r in
        let '(indexString, r2) := JS.span JS.is_digit r1 in
        if JS.nonempty name && JS.nonempty indexString && negb (JS.nonempty r2)
        then Some (name, indexString)
        else None
      else None
  | _ => None
  end.

Fixpoint L_LIST_match (key : string) : option (string * string) :=
  match L_LIST_here key with
  | Some m => Some m
  | None =>
      match key with
      | EmptyString => None
      | String _ r => L_LIST_match r
      end
  end.

Record RetryOptions : Type := mk_retry {
  retries : nat;
  minTimeout : N;
  factor : Q
}.

Record PartialRetryOptions : Type := mk_partial_retry {
  opt_retries : option nat;
  opt_minTimeout : option N;
  opt_factor : option Q
}.

Record PaypalOptions : Type := mk_options {
  sandbox : bool;
  opt_user : string;
  opt_pwd : string;
  opt_signature : string;
  opt_retryOptions : option PartialRetryOptions
}.

Inductive PAYPAL_METHODS : Type :=
  | BillAgreementUpdate
  | CreateBillingAgreement
  | DoReferenceTransaction
  | GetTransactionDetails
  | SetExpressCheckout
  | TransactionSearch.

Definition method_name (m : PAYPAL_METHODS) : string :=
  match m with
  | BillAgreementUpdate => "BillAgreementUpdate"
  | CreateBillingAgreement => "CreateBillingAgreement"
  | DoReferenceTransaction => "DoReferenceTransaction"
  | GetTransactionDetails => "GetTransactionDetails"
  | SetExpressCheckout => "SetExpressCheckout"
  | TransactionSearch => "TransactionSearch"
  end.

(** The values of a decoded response: what [querystring.parse] gave for a
    key, or the derived list of rows. *)
Definition row : Type := JS.obj parsed.

Inductive nvpval : Type :=
  | Str (s : string)
  | Strs (l : list string)
  | Rows (lst : JS.array row).

Definition of_parsed (v : parsed) : nvpval :=
  match v with
  | QStr s => Str s
  | QArr l => Strs l
  end.

Definition NVPResponse : Type := JS.obj nvpval.

(** An IPN message: the fields of a decoded notification. *)
Definition IpnMessage : Type := JS.obj nvpval.

(** [isIpnMerchPmt]: [['merch_pmt', 'mp_cancel'].includes(ipnMessage.txn_type)].
    [includes] compares with the strict equality of strings, so a missing
    field and a field that is not a string are not found. *)
Definition isIpnMerchPmt (ipnMessage : IpnMessage) : bool :=
  match JS.get ipnMessage "txn_type" with
  | Some (Str txn_type) =>
      existsb (fun x => String.eqb x txn_type) ["merch_pmt"; "mp_cancel"]
  | _ => false
  end.

Inductive error : Type :=
  | TransportError (reason : string)
  | PayPalClientError (raw : string) (data : NVPResponse).

Definition quoted (s : string) : string :=
  String (ascii_of_N 34) s +:+ String (ascii_of_N 34) EmptyString.

Definition PayPalClientError_message : string :=
  "PayPal NVP returned a non-success ACK. See " +:+ quoted "this.raw" +:+
  " or " +:+ quoted "this.data" +:+ " for more details.".

Record PayPalClient : Type := mk_client {
  url : string;
  ipnUrl : string;
  user : string;
  pwd : string;
  signature : string;
  retryOptions : RetryOptions
}.

Definition new (options : PaypalOptions) : PayPalClient :=
  let given := match opt_retryOptions options with
               | Some r => r
               | None => mk_partial_retry None None None
               end in
  {| url := if sandbox options then PAYPAL_SANDBOX_API else PAYPAL_LIVE_API;
     ipnUrl := if sandbox options then PAYPAL_SANDBOX_IPN else PAYPAL_LIVE_IPN;
     user := opt_user options;
     pwd := opt_pwd options;
     signature := opt_signature options;
     retryOptions :=
       {| retries := default 3%nat (opt_retries given);
          minTimeout := default 500 (opt_minTimeout given);
          factor := default (166 # 100)%Q (opt_factor given) |} |}.

Definition objectToNVP (object : JS.obj value) : string := stringify object.

(** One turn of the loop of [nvpToObject] over [Object.entries(object)]. *)
Definition nvp_step (st : NVPResponse * JS.array row) (kv : string * parsed)
    : NVPResponse * JS.array row :=
  let '(result, lst) := st in
  let '(key, val) := kv in
  match L_LIST_match key with
  | None => (JS.assign result key (of_parsed val), lst)
  | Some (name, indexString) =>
      let index := JS.parseInt indexString in
      let lst1 := match JS.arr_get lst index with
                  | None => JS.arr_set lst index JS.empty_obj
                  | Some _ => lst
                  end in
      (result,
       JS.mk_array
         (alter (fun r => JS.define r name val) index (JS.arr_props lst1))
         (JS.arr_length lst1))
  end.

Definition nvp_loop (object : JS.obj parsed) : NVPResponse * JS.array row :=
  fold_left nvp_step (JS.entries object) (JS.empty_obj, JS.empty_array).

Definition nvpToObject (payload : string) : NVPResponse :=
  let object := parse payload in
  let '(result, lst) := nvp_loop object in
  if negb (JS.arr_length lst =? 0) then JS.assign result "L" (Rows lst)
  else result.

Definition str (s : string) : value := Prim (PStr s).

(** The object literal [{ ...data, USER, METHOD, PWD, SIGNATURE, VERSION }]
    of [doRequest]: the own properties of [data] are copied into a fresh
    object, then the five fields are defined, replacing any of the same
    name. *)
Definition request_object (c : PayPalClient) (method : PAYPAL_METHODS)
    (data : JS.obj value) : JS.obj value :=
  fold_left (fun o kv => JS.define o (fst kv) (snd kv))
    [("USER", str (user c));
     ("METHOD", str (method_name method));
     ("PWD", str (pwd c));
     ("SIGNATURE", str (signature c));
     ("VERSION", str PAYPAL_VERSION)]
    (JS.spread JS.empty_obj data).

Definition is_success (resultObj : NVPResponse) : bool :=
  match JS.get resultObj "ACK" with
  | Some (Str ack) =>
      String.eqb ack "Success" || String.eqb ack "SuccessWithWarning"
  | _ => false
  end.

Definition doRequest (c : PayPalClient) (method : PAYPAL_METHODS)
    (data : JS.obj value) : Net.io error NVPResponse :=
  let payload := objectToNVP (request_object c method data) in
  let* text :=
    Net.pRetry
      (Net.post TransportError (url c)
         [("content-type", "application/x-www-form-urlencoded")] payload)
      (retries (retryOptions c)) in
  let resultObj := nvpToObject text in
  if is_success resultObj then Net.ret resultObj
  else Net.throw (PayPalClientError text resultObj).

Definition setExpressCheckout (c : PayPalClient) : Net.io error NVPResponse :=
  let data :=
    [("CANCELURL", str PLACEHOLDER_URL);
     ("L_BILLINGAGREEMENTDESCRIPTION0", str "Mozilla");
     ("L_BILLINGTYPE0", str "MerchantInitiatedBilling");
     ("NOSHIPPING", Prim (PNum 1));
     ("PAYMENTREQUEST_0_AMT", str "0");
     ("PAYMENTREQUEST_0_CURRENCYCODE", str "USD");
     ("PAYMENTREQUEST_0_PAYMENTACTION", str "AUTHORIZATION");
     ("RETURNURL", str PLACEHOLDER_URL)] in
  doRequest c SetExpressCheckout data.

Record CreateBillingAgreementOptions : Type := { token : string }.

Definition createBillingAgreement (c : PayPalClient)
    (options : CreateBillingAgreementOptions) : Net.io error NVPResponse :=
  doRequest c CreateBillingAgreement [("token", str (token options))].

Record DoReferenceTransactionOptions : Type := mk_charge {
  amount : string;
  billingAgreementId : string;
  invoiceNumber : string;
  idempotencyKey : string
}.

Definition doReferenceTransaction (c : PayPalClient)
    (options : DoReferenceTransactionOptions) : Net.io error NVPResponse :=
  let data :=
    [("AMT", str (amount options));
     ("INVNUM", str (invoiceNumber options));
     ("MSGSUBID", str (idempotencyKey options));
     ("PAYMENTACTION", str "Sale");
     ("PAYMENTTYPE", str "instant");
     ("REFERENCEID", str (billingAgreementId options))] in
  doRequest c DoReferenceTransaction data.

Record BAUpdateOptions : Type := { ba_billingAgreementId : string }.

Definition baUpdate (c : PayPalClient) (options : BAUpdateOptions)
    : Net.io error NVPResponse :=
  doRequest c BillAgreementUpdate
    [("REFERENCEID", str (ba_billingAgreementId options))].

(** [ipnVerify]: [pRetry] is given no options here. *)
Definition ipnVerify (c : PayPalClient) (message : string)
    : Net.io error string :=
  let verifyBody := "cmd=_notify-validate&" +:+ message in
  Net.pRetry (Net.post TransportError (ipnUrl c) [] verifyBody)
    Net.pRetry_default_retries.

End PayPalClient.

(** ** The reconciliation helper ([lib/payments/paypal], class [PayPalHelper])

    Modelled from the spec: the source of the class is missing, only its
    test is at hand. The operations follow section 4.3 of the specification
    and the values the test compares against.

    The helper talks to three collaborators: the ledger (the Stripe helper),
    the PayPal client and the logger. Its operations run in a monad that
    threads the [world]: the calls made to the collaborators so far, in
    order, and the ledger's payment-attempt counter of each invoice. *)

Module PayPalHelper.

Record Invoice : Type := mk_invoice {
  id : string;
  status : string;
  amount_due : N
}.

(** What [chargeCustomer] is called with, and what it resolves to. *)
Record ChargeOptions : Type := mk_charge_options {
  amount : string;
  billingAgreementId : string;
  invoiceNumber : string;
  idempotencyKey : string
}.

Record ChargeOutcome : Type := mk_outcome {
  paymentStatus : string;
  transactionId : string
}.

Inductive error : Type :=
  | internalValidationError (op message : string)
      (transactionResponse : option string)
  | paymentFailed
  | clientError (e : PayPalClient.error).

Section Helper.

(** The customer record and the values the ledger calls resolve to belong to
    the ledger; the helper only passes them along. *)
Context {Customer Outcome : Type}.

Inductive call : Type :=
  | getCustomerPaypalAgreement (customer : Customer)
  | finalizeInvoice (invoice : Invoice)
  | getPaymentAttempts (invoice : Invoice)
  | updatePaymentAttempts (invoice : Invoice)
  | updateInvoiceWithPaypalTransactionId (invoice : Invoice) (txn : string)
  | payInvoiceOutOfBand (invoice : Invoice)
  | chargeCustomer (options : ChargeOptions)
  | logError (op : string) (detail : string).

(** The calls that change the ledger. *)
Definition is_ledger_mutation (c : call) : bool :=
  match c with
  | finalizeInvoice _ | updatePaymentAttempts _
  | updateInvoiceWithPaypalTransactionId _ _ | payInvoiceOutOfBand _ => true
  | _ => false
  end.

(** The calls that reach PayPal. *)
Definition is_charge (c : call) : bool :=
  match c with
  | chargeCustomer _ => true
  | _ => false
  end.

Record world : Type := mk_world {
  calls : list call;
  attempts : gmap string N
}.

(** How the collaborators answer: the agreement on file for a customer, the
    value a ledger call resolves to, and the result of a charge, each given
    the world at the time of the call. *)
Record collaborators : Type := mk_collaborators {
  agreement_of : world -> Customer -> option string;
  resolves_to : world -> call -> Outcome;
  charge_result : world -> ChargeOptions -> Net.result error ChargeOutcome
}.

Definition M (A : Type) : Type :=
  collaborators -> world -> Net.result error A * world.

Definition ret {A} (a : A) : M A := fun _ w => (Net.Ok a, w).

Definition throw {A} (e : error) : M A := fun _ w => (Net.Thrown e, w).

Definition bind {A B} (m : M A) (f : A -> M B) : M B :=
  fun env w =>
    match m env w with
    | (Net.Ok a, w') => f a env w'
    | (Net.Thrown e, w') => (Net.Thrown e, w')
    end.

Definition record (c : call) (w : world) : world :=
  mk_world (calls w ++ [c])%list (attempts w).

Definition attempts_of (w : world) (invoice : Invoice) : N :=
  default 0 (attempts w !! id invoice).

(** Modelled from the spec: the ledger collaborator (the Stripe helper) is
    not among the sources. Section 4.3 gives its interface; the invoice
    carries a payment-attempt counter (section 3) that
    [getPaymentAttempts] reads and [updatePaymentAttempts] increments. The
    spec leaves open what happens when a ledger call fails, so none does. *)
Definition ledger_call (c : call) : M Outcome :=
  fun env w =>
    let w' := record c w in
    (Net.Ok (resolves_to env w c),
     match c with
     | updatePaymentAttempts invoice =>
         mk_world (calls w')
           (<[id invoice := attempts_of w invoice + 1]> (attempts w'))
     | _ => w'
     end).

(** Modelled from the spec: [ledger.getCustomerPaypalAgreement(customer)],
    see [ledger_call]. *)
Definition ledger_getCustomerPaypalAgreement (customer : Customer)
    : M (option string) :=
  fun env w =>
    (Net.Ok (agreement_of env w customer),
     record (getCustomerPaypalAgreement customer) w).

(** Modelled from the spec: [ledger.getPaymentAttempts(invoice)], see
    [ledger_call]. *)
Definition ledger_getPaymentAttempts (invoice : Invoice) : M N :=
  fun env w =>
    (Net.Ok (attempts_of w invoice), record (getPaymentAttempts invoice) w).

(** Modelled from the spec: [chargeCustomer(options)] of the helper, a
    pass-through to the client's [doReferenceTransaction] that resolves to
    the charge attempt outcome and propagates the client's errors. *)
Definition helper_chargeCustomer (options : ChargeOptions) : M ChargeOutcome :=
  fun env w => (charge_result env w options, record (chargeCustomer options) w).

(** Modelled from the spec: the logger's [error] method. *)
Definition log_error (op detail : string) : M unit :=
  fun env w => (Net.Ok tt, record (logError op detail) w).

(** Modelled from the spec: [processZeroInvoice(invoice)] of the helper,
    whose source file is missing: finalize the invoice, mark it paid out of
    band, return both outcomes. *)
Definition processZeroInvoice (invoice : Invoice) : M (Outcome * Outcome) :=
  bind (ledger_call (finalizeInvoice invoice)) (fun finalized =>
  bind (ledger_call (payInvoiceOutOfBand invoice)) (fun paid =>
  ret (finalized, paid))).

Definition one_of (s : string) (l : list string) : bool :=
  existsb (String.eqb s) l.

(** Modelled from the spec: [processInvoice({customer, invoice})] of the
    helper, whose source file is missing, step by step as section 4.3 lists
    them; the error values are those the tests compare against. *)
Definition processInvoice (customer : Customer) (invoice : Invoice)
    : M (option (Outcome * Outcome)) :=
  bind (ledger_getCustomerPaypalAgreement customer) (fun agreement =>
  match agreement with
  | None =>
      throw (internalValidationError "processInvoice"
               "Agreement ID not found." None)
  | Some agreementId =>
      if negb (one_of (status invoice) ["draft"; "open"]) then
        throw (internalValidationError "processInvoice"
                 "Invoice in invalid state." None)
      else
        bind (if String.eqb (status invoice) "draft"
              then bind (ledger_call (finalizeInvoice invoice))
                     (fun _ => ret tt)
              else ret tt) (fun _ =>
        bind (ledger_getPaymentAttempts invoice) (fun paymentAttempts =>
        let key := id invoice +:+ QueryString.decimal paymentAttempts in
        bind (helper_chargeCustomer
                {| amount := QueryString.decimal (amount_due invoice);
                   billingAgreementId := agreementId;
                   invoiceNumber := id invoice;
                   idempotencyKey := key |}) (fun outcome =>
        let st := paymentStatus outcome in
        if String.eqb st "Completed" then
          bind (ledger_call
                  (updateInvoiceWithPaypalTransactionId invoice
                     (transactionId outcome))) (fun updated =>
          bind (ledger_call (payInvoiceOutOfBand invoice)) (fun paid =>
          ret (Some (updated, paid))))
        else if one_of st ["Pending"; "In-Progress"] then
          ret None
        else if one_of st ["Denied"; "Failed"; "Voided"; "Expired"] then
          bind (ledger_call (updatePaymentAttempts invoice)) (fun _ =>
          throw paymentFailed)
        else
          bind (log_error "processInvoice" st) (fun _ =>
          throw (internalValidationError "processInvoice"
                   "Unexpected PayPal transaction response." (Some st))))))
  end).

End Helper.

Arguments call : clear implicits.
Arguments world : clear implicits.
Arguments collaborators : clear implicits.

End PayPalHelper.

(** * Vocabulary of the properties

    The notions the statements below are written with: what the codec puts
    on the wire, the shape of an ordinal key, where the loop of
    [nvpToObject] routes a key, and the calls of a run of the helper. *)

Import PayPalClient.

(** ** The codec *)

(** The characters other than [c]. *)
Definition differs (c : ascii) : ascii -> bool := fun x => negb (Ascii.eqb x c).

(** The characters [escape] produces. *)
Definition wire (c : ascii) : bool :=
  QueryString.noEscape c || Ascii.eqb c "%".

(** The text [stringify] emits for one key and one of its values. *)
Definition field (ks : string * string) : string :=
  QueryString.escape (fst ks) +:+ String "=" (QueryString.escape (snd ks)).

(** The key/value pairs [stringify] emits for one property. *)
Definition pairs_of (kv : string * QueryString.value) : list (string * string) :=
  match snd kv with
  | QueryString.Prim p => [(fst kv, QueryString.stringifyPrimitive p)]
  | QueryString.Arr l =>
      map (fun p => (fst kv, QueryString.stringifyPrimitive p)) l
  end.

(** The fields joined by [&]. *)
Fixpoint join_amp (l : list string) : string :=
  match l with
  | [] => EmptyString
  | [f] => f
  | f :: r => f +:+ String "&" (join_amp r)
  end.

(** [addKeyValue] applied to each pair in turn: what [parse] does with the
    segments [stringify] wrote. *)
Definition replay (pairs : list (string * string)) (acc : JS.obj QueryString.parsed)
    : JS.obj QueryString.parsed :=
  fold_left (fun acc ks => QueryString.addKeyValue acc (fst ks) (snd ks))
    pairs acc.

(** ** Ordinal keys *)

(** [ordinal s name index]: [s] is [L_<NAME><index>], the name being
    uppercase letters and the index decimal digits, neither empty. *)
Definition ordinal (s name index : string) : Prop :=
  s = String "L" (String "_" (name +:+ index)) /\
  JS.nonempty name = true /\ JS.all_chars JS.is_upper name = true /\
  JS.nonempty index = true /\ JS.all_chars JS.is_digit index = true.

(** [ordinal_suffix key name index]: [key] ends with [L_<NAME><index>]. *)
Definition ordinal_suffix (key name index : string) : Prop :=
  exists pre s, key = pre +:+ s /\ ordinal s name index.

(** [b] does not start with a character of the class [p]. *)
Definition stops (p : ascii -> bool) (b : string) : Prop :=
  match b with
  | EmptyString => True
  | String c _ => p c = false
  end.

(** The characters that follow [L_] in an ordinal key. *)
Definition alnum (c : ascii) : bool := JS.is_upper c || JS.is_digit c.

(** ** The loop of [nvpToObject] *)

(** The loop run over the entries [es] from the state [st]. *)
Definition loop_from (es : list (string * QueryString.parsed))
    (st : NVPResponse * JS.array row) : NVPResponse * JS.array row :=
  fold_left nvp_step es st.

(** [routes_to key i name]: [key] ends with [L_<name><index>] for an index
    that parses to [i]. *)
Definition routes_to (key : string) (i : JS.num) (name : string) : Prop :=
  exists index, ordinal_suffix key name index /\ JS.parseInt index = i.

(** [slot lst i name val]: [lst[i][name]] is [val]. *)
Definition slot (lst : JS.array row) (i : JS.num) (name : string)
    (val : QueryString.parsed) : Prop :=
  exists r, JS.arr_get lst i = Some r /\ JS.get r name = Some val.

(** Every row at an array index sits below [length]. *)
Definition rows_below_length (lst : JS.array row) : Prop :=
  forall n, n < 4294967295 -> JS.arr_get lst (JS.Finite n) <> None ->
            n < JS.arr_length lst.

(** [length] is no larger than the highest row requires. *)
Definition length_tight (lst : JS.array row) : Prop :=
  JS.arr_length lst = 0 \/
  exists n, n < 4294967295 /\ JS.arr_get lst (JS.Finite n) <> None /\
            JS.arr_length lst = n + 1.

(** The list [lst] and the object [result] when the loop of
    [nvpToObject payload] ends. *)
Definition derived_list (payload : string) : JS.array row :=
  snd (nvp_loop (QueryString.parse payload)).

Definition scalars (payload : string) : NVPResponse :=
  fst (nvp_loop (QueryString.parse payload)).

(** The decoded response has the field [L] exactly when the payload had a
    key of the form [L_<NAME><index>]: the reading of the specification
    that [nvpToObject] does not meet. *)
Definition L_iff_ordinal_key (payload : string) : Prop :=
  JS.get (nvpToObject payload) "L" <> None <->
  exists key val name index,
    In (key, val) (JS.entries (QueryString.parse payload)) /\
    ordinal key name index.

(** A flat map with string values, as the object [objectToNVP] is given. *)
Definition to_values (m : JS.obj string) : JS.obj QueryString.value :=
  map (fun kv => (fst kv, str (snd kv))) m.

(** Decoding the encoding of [m] gives [m] back, field by field. *)
Definition decodes_back (m : JS.obj string) : Prop :=
  forall k,
    JS.get (nvpToObject (objectToNVP (to_values m))) k = Str <$> JS.get m k.

(** ** Requests *)

(** The request [ipnVerify] posts. *)
Definition verify_request (c : PayPalClient) (message : string) : Net.request :=
  Net.mk_request (ipnUrl c) [] ("cmd=_notify-validate&" +:+ message).

(** A network that fails the first request and answers the later ones. *)
Definition fails_once (answer : string) : Net.network :=
  fun log _ =>
    match log with
    | [] => Net.Fails "ECONNRESET"
    | _ :: _ => Net.Responds answer
    end.

(** The request [doRequest] posts. *)
Definition rpc_request (c : PayPalClient) (method : PAYPAL_METHODS)
    (data : JS.obj QueryString.value) : Net.request :=
  Net.mk_request (url c)
    [("content-type", "application/x-www-form-urlencoded")]
    (objectToNVP (request_object c method data)).

(** [resultObj.ACK === 'Success' || resultObj.ACK === 'SuccessWithWarning']. *)
Definition ack_is_success (resultObj : NVPResponse) : Prop :=
  JS.get resultObj "ACK" = Some (Str "Success") \/
  JS.get resultObj "ACK" = Some (Str "SuccessWithWarning").

(** ** Runs of the helper *)

Section HelperVocabulary.

Import PayPalHelper.

Context {Customer Outcome : Type}.

Abbreviation call := (PayPalHelper.call Customer).
Abbreviation world := (PayPalHelper.world Customer).
Abbreviation collaborators := (PayPalHelper.collaborators Customer Outcome).

Implicit Types (env : collaborators) (w : world) (customer : Customer)
  (invoice : Invoice).

(** The calls [processInvoice] makes before it charges. *)
Definition before_charge customer invoice : list call :=
  (getCustomerPaypalAgreement customer ::
   (if String.eqb (status invoice) "draft" then [finalizeInvoice invoice]
    else []) ++ [getPaymentAttempts invoice])%list.

(** What [processInvoice] charges, for a given agreement and count of
    payment attempts. *)
Definition charge_options (agreementId : string) invoice (paymentAttempts : N)
    : ChargeOptions :=
  {| amount := QueryString.decimal (amount_due invoice);
     billingAgreementId := agreementId;
     invoiceNumber := id invoice;
     idempotencyKey := id invoice +:+ QueryString.decimal paymentAttempts |}.

(** The world when [processInvoice] charges. *)
Definition at_charge w customer invoice : world :=
  mk_world (calls w ++ before_charge customer invoice)%list (attempts w).

(** The payment statuses that end an attempt in failure. *)
Definition terminal_failure (st : string) : Prop :=
  st = "Denied" \/ st = "Failed" \/ st = "Voided" \/ st = "Expired".

(** The payment statuses that leave an attempt open. *)
Definition unresolved (st : string) : Prop :=
  st = "Pending" \/ st = "In-Progress".

(** The idempotency keys of the charges among some calls. *)
Definition charged_keys (cs : list call) : list string :=
  flat_map (fun c => match c with
                     | chargeCustomer o => [idempotencyKey o]
                     | _ => []
                     end) cs.

(** The idempotency keys one run of [processInvoice] charges with. *)
Definition run_keys env w customer invoice : list string :=
  charged_keys
    (drop (length (calls w))
       (calls (snd (processInvoice customer invoice env w)))).

End HelperVocabulary.

(** The invoice of the tests, with a status and an amount due. *)
Definition example_invoice (st : string) (due : N) : PayPalHelper.Invoice :=
  PayPalHelper.mk_invoice "inv_0000000000" st due.

(** Collaborators that know one customer, with agreement [agreement-id], and
    answer every charge with the given payment status. *)
Definition example_collaborators (paymentStatus : string)
    : PayPalHelper.collaborators string string :=
  {| PayPalHelper.agreement_of := fun _ customer =>
       if String.eqb customer "cus_1" then Some "agreement-id" else None;
     PayPalHelper.resolves_to := fun _ _ => "{}";
     PayPalHelper.charge_result := fun _ _ =>
       Net.Ok (PayPalHelper.mk_outcome paymentStatus "transaction-id") |}.

(** No call made yet, no payment attempt counted. *)
Definition fresh_world : PayPalHelper.world string :=
  PayPalHelper.mk_world [] ∅.

(** The first charge of that invoice when 499 is due. *)
Definition example_charge : PayPalHelper.ChargeOptions :=
  PayPalHelper.mk_charge_options "499" "agreement-id" "inv_0000000000"
    "inv_00000000000".

(** ** Encoded values and request bodies *)

(** The strings [stringify] writes for a value, one per field. *)
Definition rendered (v : QueryString.value) : list string :=
  match v with
  | QueryString.Prim p => [QueryString.stringifyPrimitive p]
  | QueryString.Arr l => map QueryString.stringifyPrimitive l
  end.

(** What [parse] holds for a key met with the values [vs], in order:
    nothing, a string, or the array of them. *)
Definition collected (vs : list string) : option QueryString.parsed :=
  match vs with
  | [] => None
  | [v] => Some (QueryString.QStr v)
  | _ :: _ :: _ => Some (QueryString.QArr vs)
  end.

(** The values the pairs give to the key [k], in order. *)
Fixpoint values_of (k : string) (pairs : list (string * string)) : list string :=
  match pairs with
  | [] => []
  | (k', v) :: r => if String.eqb k' k then v :: values_of k r else values_of k r
  end.


(** The characters of a form-encoded body. *)
Definition form_char (c : ascii) : bool :=
  wire c || Ascii.eqb c "=" || Ascii.eqb c "&".

(** The five fields [doRequest] adds to every request. *)
Definition protocol_fields (c : PayPalClient) (method : PAYPAL_METHODS)
    : JS.obj QueryString.parsed :=
  [("USER", QueryString.QStr (user c));
   ("METHOD", QueryString.QStr (method_name method));
   ("PWD", QueryString.QStr (pwd c));
   ("SIGNATURE", QueryString.QStr (signature c));
   ("VERSION", QueryString.QStr "204")].

(** The fields on the wire for each method of the client. *)
Definition setExpressCheckout_fields (c : PayPalClient)
    : JS.obj QueryString.parsed :=
  ([("CANCELURL", QueryString.QStr "https://www.paypal.com/checkoutnow/error");
    ("L_BILLINGAGREEMENTDESCRIPTION0", QueryString.QStr "Mozilla");
    ("L_BILLINGTYPE0", QueryString.QStr "MerchantInitiatedBilling");
    ("NOSHIPPING", QueryString.QStr "1");
    ("PAYMENTREQUEST_0_AMT", QueryString.QStr "0");
    ("PAYMENTREQUEST_0_CURRENCYCODE", QueryString.QStr "USD");
    ("PAYMENTREQUEST_0_PAYMENTACTION", QueryString.QStr "AUTHORIZATION");
    ("RETURNURL", QueryString.QStr "https://www.paypal.com/checkoutnow/error")]
   ++ protocol_fields c SetExpressCheckout)%list.

Definition createBillingAgreement_fields (c : PayPalClient)
    (options : CreateBillingAgreementOptions) : JS.obj QueryString.parsed :=
  (("token", QueryString.QStr (token options))
   :: protocol_fields c CreateBillingAgreement)%list.

Definition doReferenceTransaction_fields (c : PayPalClient)
    (options : DoReferenceTransactionOptions) : JS.obj QueryString.parsed :=
  ([("AMT", QueryString.QStr (PayPalClient.amount options));
    ("INVNUM", QueryString.QStr (PayPalClient.invoiceNumber options));
    ("MSGSUBID", QueryString.QStr (PayPalClient.idempotencyKey options));
    ("PAYMENTACTION", QueryString.QStr "Sale");
    ("PAYMENTTYPE", QueryString.QStr "instant");
    ("REFERENCEID", QueryString.QStr (PayPalClient.billingAgreementId options))]
   ++ protocol_fields c DoReferenceTransaction)%list.

Definition baUpdate_fields (c : PayPalClient) (options : BAUpdateOptions)
    : JS.obj QueryString.parsed :=
  (("REFERENCEID", QueryString.QStr (ba_billingAgreementId options))
   :: protocol_fields c BillAgreementUpdate)%list.

(** [run] posted the request [req] once or more, up to [budget] times after
    the first, and nothing else. *)
Definition posted_only (req : Net.request) (budget : nat)
    (log log' : list Net.request) : Prop :=
  exists k : nat, (k <= budget)%nat /\ log' = (log ++ repeat req (S k))%list.

(** * Properties *)

#[local] Arguments JS.index_key : simpl never.
#[local] Arguments JS.parseInt : simpl never.

(** ** Objects *)

Section ObjectFacts.

Context {V : Type}.
Implicit Types (o : JS.obj V) (k : string) (v : V).

Lemma get_define o k v k' :
  JS.get (JS.define o k v) k' = if String.eqb k k' then Some v else JS.get o k'.
Proof.
  induction o as [|[k0 v0] r IH]; simpl.
  - destruct (String.eqb_spec k k'); reflexivity.
  - destruct (String.eqb_spec k0 k) as [->|Hne]; simpl.
    + destruct (String.eqb_spec k k'); reflexivity.
    + rewrite IH. destruct (String.eqb_spec k0 k') as [->|Hne'].
      * destruct (String.eqb_spec k k'); [congruence | reflexivity].
      * reflexivity.
Qed.

Lemma get_define_eq o k v : JS.get (JS.define o k v) k = Some v.
Proof. rewrite get_define, String.eqb_refl. reflexivity. Qed.

Lemma get_define_ne o k v k' :
  k <> k' -> JS.get (JS.define o k v) k' = JS.get o k'.
Proof.
  intros Hne. rewrite get_define.
  destruct (String.eqb_spec k k'); [contradiction | reflexivity].
Qed.

Lemma get_assign o k v k' :
  JS.get (JS.assign o k v) k' =
  if String.eqb k "__proto__" then JS.get o k'
  else if String.eqb k k' then Some v else JS.get o k'.
Proof.
  unfold JS.assign. destruct (String.eqb k "__proto__"); [reflexivity|].
  apply get_define.
Qed.

Lemma get_In o k v : JS.get o k = Some v -> In (k, v) o.
Proof.
  induction o as [|[k0 v0] r IH]; simpl; [discriminate|].
  destruct (String.eqb_spec k0 k) as [->|Hne].
  - intros [= ->]. left. reflexivity.
  - intros H. right. apply IH, H.
Qed.

Lemma get_None o k : JS.get o k = None <-> ~ In k (map fst o).
Proof.
  induction o as [|[k0 v0] r IH]; simpl.
  - split; [intros _ [] | reflexivity].
  - destruct (String.eqb_spec k0 k) as [->|Hne].
    + split; [discriminate | intros H; exfalso; apply H; left; reflexivity].
    + rewrite IH. split.
      * intros H [Heq|Hin]; [contradiction | apply H, Hin].
      * intros H Hin. apply H. right. exact Hin.
Qed.

Lemma In_get o k v :
  List.NoDup (map fst o) -> In (k, v) o -> JS.get o k = Some v.
Proof.
  induction o as [|[k0 v0] r IH]; simpl; [intros _ []|].
  intros Hnd [Heq|Hin].
  - injection Heq as -> ->. rewrite String.eqb_refl. reflexivity.
  - inversion Hnd as [|? ? Hnotin Hnd']; subst.
    destruct (String.eqb_spec k0 k) as [->|Hne].
    + exfalso. apply Hnotin. apply (in_map fst) in Hin. exact Hin.
    + apply IH; assumption.
Qed.

Lemma define_keys_In o k v k' :
  In k' (map fst (JS.define o k v)) <-> k' = k \/ In k' (map fst o).
Proof.
  induction o as [|[k0 v0] r IH]; simpl.
  - intuition congruence.
  - destruct (String.eqb_spec k0 k) as [->|Hne]; simpl.
    + intuition congruence.
    + rewrite IH. intuition congruence.
Qed.

Lemma define_NoDup o k v :
  List.NoDup (map fst o) -> List.NoDup (map fst (JS.define o k v)).
Proof.
  induction o as [|[k0 v0] r IH]; simpl; intros Hnd.
  - constructor; [intros [] | constructor].
  - inversion Hnd as [|? ? Hnotin Hnd']; subst.
    destruct (String.eqb_spec k0 k) as [->|Hne]; simpl.
    + constructor; assumption.
    + constructor; [|apply IH, Hnd'].
      rewrite define_keys_In. intros [Heq|Hin]; [congruence | contradiction].
Qed.

Lemma assign_NoDup o k v :
  List.NoDup (map fst o) -> List.NoDup (map fst (JS.assign o k v)).
Proof.
  unfold JS.assign. destruct (String.eqb k "__proto__"); [tauto|].
  apply define_NoDup.
Qed.

(** [Object.entries] enumerates exactly the own properties. *)

Lemma insert_sorted_In (n : N) (kv : string * V) l x :
  In x (JS.insert_sorted n kv l) <-> x = (n, kv) \/ In x l.
Proof.
  induction l as [|[m kv'] r IH]; simpl.
  - intuition congruence.
  - destruct (n <? m); simpl; [intuition congruence|].
    rewrite IH. intuition congruence.
Qed.

Lemma index_entries_In o kv :
  In kv (map snd (JS.index_entries o)) <->
  In kv o /\ JS.index_key (fst kv) <> None.
Proof.
  induction o as [|[k0 v0] r IH]; simpl.
  - tauto.
  - destruct (JS.index_key k0) as [n|] eqn:Hk.
    + rewrite in_map_iff. split.
      * intros [[m kv'] [<- Hin]]. apply insert_sorted_In in Hin.
        destruct Hin as [[= -> ->]|Hin].
        -- simpl. split; [left; reflexivity | congruence].
        -- assert (In kv' (map snd (JS.index_entries r)))
             by (apply in_map_iff; exists (m, kv'); auto).
           apply IH in H. simpl. tauto.
      * intros [[<-|Hin] Hidx].
        -- exists (n, (k0, v0)). split; [reflexivity|].
           apply insert_sorted_In. left. reflexivity.
        -- assert (In kv (map snd (JS.index_entries r))) as H
             by (apply IH; tauto).
           apply in_map_iff in H. destruct H as [[m kv'] [<- H]].
           exists (m, kv'). split; [reflexivity|].
           apply insert_sorted_In. right. exact H.
    + rewrite IH. split.
      * intros [Hin Hidx]. tauto.
      * intros [[<-|Hin] Hidx]; [simpl in Hidx; congruence | tauto].
Qed.

Lemma named_entries_In o kv :
  In kv (JS.named_entries o) <-> In kv o /\ JS.index_key (fst kv) = None.
Proof.
  induction o as [|[k0 v0] r IH]; simpl.
  - tauto.
  - destruct (JS.index_key k0) as [n|] eqn:Hk; simpl; rewrite IH.
    + split; [tauto|]. intros [[<-|Hin] Hidx]; [simpl in Hidx; congruence | tauto].
    + split.
      * intros [<-|[Hin Hidx]]; [simpl; tauto | tauto].
      * intros [[<-|Hin] Hidx]; tauto.
Qed.

Lemma entries_In o kv : In kv (JS.entries o) <-> In kv o.
Proof.
  unfold JS.entries. rewrite in_app_iff, index_entries_In, named_entries_In.
  destruct (JS.index_key (fst kv)); intuition congruence.
Qed.

End ObjectFacts.

Section EntriesOrder.

Context {V : Type}.

Lemma insert_sorted_perm (n : N) (kv : string * V) l :
  Permutation (JS.insert_sorted n kv l) ((n, kv) :: l).
Proof.
  induction l as [|[m kv'] r IH]; simpl; [reflexivity|].
  destruct (n <? m); [reflexivity|].
  rewrite IH. apply perm_swap.
Qed.

Lemma entries_perm (o : JS.obj V) : Permutation (JS.entries o) o.
Proof.
  unfold JS.entries. induction o as [|[k v] r IH]; simpl; [reflexivity|].
  destruct (JS.index_key k) as [n|].
  - rewrite insert_sorted_perm. simpl. constructor. exact IH.
  - rewrite <- Permutation_middle. constructor. exact IH.
Qed.

Lemma entries_NoDup (o : JS.obj V) :
  List.NoDup (map fst o) -> List.NoDup (map fst (JS.entries o)).
Proof.
  intros H. eapply Permutation_NoDup; [|exact H].
  apply Permutation_map. symmetry. apply entries_perm.
Qed.

Lemma get_entries (o : JS.obj V) k :
  List.NoDup (map fst o) -> JS.get (JS.entries o) k = JS.get o k.
Proof.
  intros Hnd. destruct (JS.get o k) as [v|] eqn:Hg.
  - apply In_get; [apply entries_NoDup, Hnd|].
    apply entries_In, get_In, Hg.
  - apply get_None. apply get_None in Hg. intros Hin. apply Hg.
    apply in_map_iff in Hin. destruct Hin as [kv [<- Hin]].
    apply in_map, entries_In, Hin.
Qed.

End EntriesOrder.

(** ** Strings *)

Lemma append_cons (x : ascii) (a b : string) :
  String x a +:+ b = String x (a +:+ b).
Proof. reflexivity. Qed.

Lemma append_nil_l (a : string) : EmptyString +:+ a = a.
Proof. reflexivity. Qed.

Lemma append_assoc (a b c : string) : (a +:+ b) +:+ c = a +:+ (b +:+ c).
Proof.
  induction a as [|x a IH]; [reflexivity|].
  rewrite !append_cons, IH. reflexivity.
Qed.

Lemma append_nil_r (a : string) : a +:+ EmptyString = a.
Proof.
  induction a as [|x a IH]; [reflexivity|].
  rewrite append_cons, IH. reflexivity.
Qed.

Lemma all_chars_app p (a b : string) :
  JS.all_chars p (a +:+ b) = JS.all_chars p a && JS.all_chars p b.
Proof.
  induction a as [|x a IH]; [reflexivity|].
  rewrite append_cons. simpl. rewrite IH, andb_assoc. reflexivity.
Qed.

Lemma all_chars_impl (p q : ascii -> bool) (s : string) :
  (forall c, p c = true -> q c = true) ->
  JS.all_chars p s = true -> JS.all_chars q s = true.
Proof.
  intros Hpq. induction s as [|x s IH]; simpl; [reflexivity|].
  intros H. apply andb_true_iff in H. destruct H as [Hx Hs].
  rewrite (Hpq _ Hx), (IH Hs). reflexivity.
Qed.

(** ** The codec of [querystring] *)

(** A property of the sixteen hexadecimal digit values, checked on each. *)
Lemma below_16 (p : N -> bool) n :
  n < 16 -> forallb p (map N.of_nat (seq 0 16)) = true -> p n = true.
Proof.
  intros Hn Hall. rewrite forallb_forall in Hall. apply Hall.
  apply in_map_iff. exists (N.to_nat n). split; [apply N2Nat.id|].
  apply in_seq. lia.
Qed.

Lemma hex_digit_wire n :
  n < 16 -> QueryString.noEscape (QueryString.hex_digit n) = true.
Proof.
  intros H.
  apply (below_16 (fun n => QueryString.noEscape (QueryString.hex_digit n)));
    [exact H | reflexivity].
Qed.

Lemma unhex_hex_digit n :
  n < 16 -> QueryString.unhex (QueryString.hex_digit n) = Some n.
Proof.
  intros H.
  apply (below_16
           (fun n => match QueryString.unhex (QueryString.hex_digit n) with
                     | Some m => m =? n
                     | None => false
                     end)) in H; [|reflexivity].
  destruct (QueryString.unhex (QueryString.hex_digit n)); [|discriminate].
  apply N.eqb_eq in H. congruence.
Qed.

Lemma code_bounded c : JS.code c < 256.
Proof. apply N_ascii_bounded. Qed.

Lemma noEscape_not_percent c :
  QueryString.noEscape c = true -> Ascii.eqb c "%" = false.
Proof.
  destruct (Ascii.eqb_spec c "%") as [->|]; [discriminate | reflexivity].
Qed.

Lemma escape_wire s : JS.all_chars wire (QueryString.escape s) = true.
Proof.
  induction s as [|c s IH]; simpl; [reflexivity|].
  destruct (QueryString.noEscape c) eqn:Hc; simpl.
  - unfold wire at 1. rewrite Hc. exact IH.
  - unfold wire at 1 2. rewrite !hex_digit_wire, IH; [reflexivity | |].
    + apply N.mod_lt. discriminate.
    + apply N.Div0.div_lt_upper_bound. pose proof (code_bounded c). lia.
Qed.

Lemma wire_differs c :
  wire c = true ->
  differs "&" c = true /\ differs "=" c = true /\ differs "+" c = true.
Proof.
  unfold differs.
  destruct (Ascii.eqb_spec c "&") as [->|]; [discriminate|].
  destruct (Ascii.eqb_spec c "=") as [->|]; [discriminate|].
  destruct (Ascii.eqb_spec c "+") as [->|]; [discriminate|].
  auto.
Qed.

Lemma escape_differs s c :
  (c = "&" \/ c = "=" \/ c = "+")%char ->
  JS.all_chars (differs c) (QueryString.escape s) = true.
Proof.
  intros Hc. apply (all_chars_impl wire); [|apply escape_wire].
  intros x Hx. apply wire_differs in Hx.
  destruct Hc as [->|[->| ->]]; tauto.
Qed.

Lemma unescape_escape s : QueryString.unescape (QueryString.escape s) = s.
Proof.
  induction s as [|c s IH]; [reflexivity|].
  cbn [QueryString.escape].
  destruct (QueryString.noEscape c) eqn:Hc.
  - cbn [QueryString.unescape]. rewrite (noEscape_not_percent c Hc).
    fold (QueryString.unescape (QueryString.escape s)). rewrite IH.
    destruct (QueryString.escape s) as [|h1 [|h2 r]]; reflexivity.
  - cbn [QueryString.unescape]. rewrite !unhex_hex_digit.
    + replace (Ascii.eqb "%" "%") with true by reflexivity.
      fold (QueryString.unescape (QueryString.escape s)). rewrite IH.
      f_equal. rewrite <- (ascii_N_embedding c) at 3. f_equal.
      unfold JS.code. symmetry. rewrite N.add_comm. rewrite N.mul_comm.
      pose proof (N.div_mod (N_of_ascii c) 16). lia.
    + apply N.mod_lt. discriminate.
    + apply N.Div0.div_lt_upper_bound. pose proof (code_bounded c). lia.
Qed.

Lemma plus_to_space_id s :
  JS.all_chars (differs "+") s = true -> QueryString.plus_to_space s = s.
Proof.
  induction s as [|c s IH]; simpl; [reflexivity|].
  intros H. apply andb_true_iff in H. destruct H as [Hc Hs].
  unfold differs in Hc. apply negb_true_iff in Hc. rewrite Hc, (IH Hs).
  reflexivity.
Qed.

Lemma decode_escape s : QueryString.decode (QueryString.escape s) = s.
Proof.
  unfold QueryString.decode.
  rewrite plus_to_space_id by (apply escape_differs; auto).
  apply unescape_escape.
Qed.

Lemma cut_eq_app a b :
  JS.all_chars (differs "=") a = true ->
  QueryString.cut_eq (a +:+ String "=" b) = Some (a, b).
Proof.
  induction a as [|c a IH]; [reflexivity|].
  rewrite append_cons. simpl. intros H. apply andb_true_iff in H.
  destruct H as [Hc Ha]. unfold differs in Hc. apply negb_true_iff in Hc.
  rewrite Hc, (IH Ha). reflexivity.
Qed.

Lemma split_amp_single a :
  JS.all_chars (differs "&") a = true -> QueryString.split_amp a = [a].
Proof.
  induction a as [|c a IH]; simpl; [reflexivity|].
  intros H. apply andb_true_iff in H. destruct H as [Hc Ha].
  unfold differs in Hc. apply negb_true_iff in Hc. rewrite Hc, (IH Ha).
  reflexivity.
Qed.

Lemma split_amp_app a b :
  JS.all_chars (differs "&") a = true ->
  QueryString.split_amp (a +:+ String "&" b) = a :: QueryString.split_amp b.
Proof.
  induction a as [|c a IH]; [reflexivity|].
  rewrite append_cons. simpl. intros H. apply andb_true_iff in H.
  destruct H as [Hc Ha]. unfold differs in Hc. apply negb_true_iff in Hc.
  rewrite Hc, (IH Ha). reflexivity.
Qed.

Lemma fields_of_pairs k v :
  QueryString.fields_of k v = map field (pairs_of (k, v)).
Proof.
  unfold QueryString.fields_of, pairs_of, field. simpl.
  destruct v as [p|l]; simpl.
  - rewrite append_assoc. reflexivity.
  - rewrite map_map. apply map_ext. intros p. simpl.
    rewrite append_assoc. reflexivity.
Qed.

Lemma field_nonempty ks : JS.nonempty (field ks) = true.
Proof.
  unfold field. destruct (QueryString.escape (fst ks)); reflexivity.
Qed.

Lemma field_no_amp ks : JS.all_chars (differs "&") (field ks) = true.
Proof.
  unfold field. rewrite all_chars_app. simpl.
  rewrite !escape_differs by auto. reflexivity.
Qed.

Lemma nonempty_app a b : JS.nonempty a = true -> JS.nonempty (a +:+ b) = true.
Proof. destruct a; [discriminate | reflexivity]. Qed.

Lemma fold_add_field (l : list (string * string)) acc :
  fold_left QueryString.add_field (map field l) acc =
  if JS.nonempty acc then
    match l with
    | [] => acc
    | _ => acc +:+ String "&" (join_amp (map field l))
    end
  else join_amp (map field l).
Proof.
  revert acc. induction l as [|ks l IH]; intros acc.
  - simpl. destruct acc; reflexivity.
  - cbn [map fold_left]. rewrite IH. unfold QueryString.add_field.
    destruct (JS.nonempty acc) eqn:Hacc.
    + rewrite nonempty_app by exact Hacc.
      destruct l as [|ks' l]; [reflexivity|].
      rewrite !append_assoc. reflexivity.
    + destruct acc; [|discriminate]. rewrite append_nil_l, field_nonempty.
      destruct l as [|ks' l]; reflexivity.
Qed.

Lemma stringify_fold (es : list (string * QueryString.value)) acc :
  fold_left
    (fun fields kv =>
       fold_left QueryString.add_field
         (QueryString.fields_of (fst kv) (snd kv)) fields) es acc =
  fold_left QueryString.add_field (map field (flat_map pairs_of es)) acc.
Proof.
  revert acc. induction es as [|[k v] es IH]; intros acc; [reflexivity|].
  cbn [fold_left flat_map fst snd].
  rewrite map_app, fold_left_app, fields_of_pairs. apply IH.
Qed.

Lemma stringify_join o :
  QueryString.stringify o =
  join_amp (map field (flat_map pairs_of (JS.entries o))).
Proof.
  unfold QueryString.stringify. rewrite stringify_fold, fold_add_field.
  reflexivity.
Qed.

Lemma split_join (l : list (string * string)) :
  l <> [] -> QueryString.split_amp (join_amp (map field l)) = map field l.
Proof.
  induction l as [|ks l IH]; [congruence|]. intros _.
  destruct l as [|ks' l].
  - simpl. apply split_amp_single, field_no_amp.
  - change (join_amp (map field (ks :: ks' :: l)))
      with (field ks +:+ String "&" (join_amp (map field (ks' :: l)))).
    rewrite split_amp_app by apply field_no_amp.
    rewrite IH by congruence. reflexivity.
Qed.

Lemma add_segment_field o ks :
  QueryString.add_segment o (field ks) =
  QueryString.addKeyValue o (fst ks) (snd ks).
Proof.
  unfold QueryString.add_segment, field.
  rewrite cut_eq_app by (apply escape_differs; auto).
  rewrite !decode_escape. reflexivity.
Qed.

(** Decoding what [stringify] produced replays [addKeyValue] on the pairs
    it emitted. *)
Lemma parse_stringify o :
  QueryString.parse (QueryString.stringify o) =
  fold_left (fun acc ks => QueryString.addKeyValue acc (fst ks) (snd ks))
    (flat_map pairs_of (JS.entries o)) JS.empty_obj.
Proof.
  rewrite stringify_join. unfold QueryString.parse.
  generalize (flat_map pairs_of (JS.entries o)) as l. intros l.
  destruct l as [|ks l]; [reflexivity|].
  rewrite split_join by congruence.
  generalize (@JS.empty_obj QueryString.parsed) as acc.
  generalize (ks :: l) as l'. clear. induction l' as [|ks l IH]; intros acc.
  - reflexivity.
  - cbn [map fold_left]. rewrite add_segment_field. apply IH.
Qed.

Lemma get_addKeyValue_ne o key val k :
  key <> k -> JS.get (QueryString.addKeyValue o key val) k = JS.get o k.
Proof.
  intros Hne. unfold QueryString.addKeyValue.
  destruct (JS.get o key) as [[cur|l]|]; apply get_define_ne, Hne.
Qed.

Lemma get_addKeyValue_new o key val :
  JS.get o key = None ->
  JS.get (QueryString.addKeyValue o key val) key = Some (QueryString.QStr val).
Proof.
  intros Hnone. unfold QueryString.addKeyValue. rewrite Hnone.
  apply get_define_eq.
Qed.

Lemma addKeyValue_NoDup o key val :
  List.NoDup (map fst o) ->
  List.NoDup (map fst (QueryString.addKeyValue o key val)).
Proof.
  intros H. unfold QueryString.addKeyValue.
  destruct (JS.get o key) as [[cur|l]|]; apply define_NoDup, H.
Qed.

Lemma replay_other pairs acc k :
  ~ In k (map fst pairs) -> JS.get (replay pairs acc) k = JS.get acc k.
Proof.
  revert acc. induction pairs as [|[k0 v0] pairs IH]; intros acc Hk.
  - reflexivity.
  - simpl in Hk. unfold replay. cbn [fold_left fst snd].
    fold (replay pairs (QueryString.addKeyValue acc k0 v0)).
    rewrite IH by tauto. apply get_addKeyValue_ne. tauto.
Qed.

Lemma replay_app l1 l2 acc : replay (l1 ++ l2) acc = replay l2 (replay l1 acc).
Proof. unfold replay. apply fold_left_app. Qed.

Lemma replay_single l1 l2 k v acc :
  ~ In k (map fst l1) -> ~ In k (map fst l2) -> JS.get acc k = None ->
  JS.get (replay (l1 ++ (k, v) :: l2) acc) k = Some (QueryString.QStr v).
Proof.
  intros H1 H2 Hacc. rewrite replay_app.
  change (replay ((k, v) :: l2) (replay l1 acc))
    with (replay l2 (QueryString.addKeyValue (replay l1 acc) k v)).
  rewrite replay_other by exact H2.
  apply get_addKeyValue_new. rewrite replay_other by exact H1. exact Hacc.
Qed.

Lemma replay_NoDup pairs acc :
  List.NoDup (map fst acc) -> List.NoDup (map fst (replay pairs acc)).
Proof.
  revert acc. induction pairs as [|ks pairs IH]; intros acc H; [exact H|].
  apply IH, addKeyValue_NoDup, H.
Qed.

Lemma parse_NoDup qs : List.NoDup (map fst (QueryString.parse qs)).
Proof.
  unfold QueryString.parse.
  assert (List.NoDup (map fst (@JS.empty_obj QueryString.parsed))) as Hacc
    by constructor.
  revert Hacc. generalize (@JS.empty_obj QueryString.parsed).
  induction (QueryString.split_amp qs) as [|seg segs IH]; intros acc Hacc.
  - exact Hacc.
  - apply IH. unfold QueryString.add_segment.
    destruct (QueryString.cut_eq seg) as [[k v]|];
      [apply addKeyValue_NoDup, Hacc|].
    destruct (JS.nonempty seg); [apply addKeyValue_NoDup, Hacc | exact Hacc].
Qed.

Lemma pairs_keys (es : list (string * QueryString.value)) k :
  In k (map fst (flat_map pairs_of es)) -> In k (map fst es).
Proof.
  induction es as [|[k0 v0] es IH]; [tauto|].
  cbn [flat_map]. rewrite map_app, in_app_iff. intros [H|H].
  - left. unfold pairs_of in H. simpl in H. destruct v0 as [p|l].
    + destruct H as [H|[]]. exact H.
    + rewrite map_map in H. simpl in H. apply in_map_iff in H.
      destruct H as [p [H _]]. exact H.
  - right. apply IH, H.
Qed.

Lemma parse_stringify_none (o : JS.obj QueryString.value) k :
  JS.get o k = None ->
  JS.get (QueryString.parse (QueryString.stringify o)) k = None.
Proof.
  intros Hnone. rewrite parse_stringify.
  change (JS.get (replay (flat_map pairs_of (JS.entries o)) JS.empty_obj) k
          = None).
  rewrite replay_other; [reflexivity|].
  intros Hin. apply pairs_keys in Hin. apply get_None in Hnone. apply Hnone.
  apply in_map_iff in Hin. destruct Hin as [kv [<- Hin]].
  apply in_map, entries_In, Hin.
Qed.

Lemma parse_stringify_prim (o : JS.obj QueryString.value) k p :
  List.NoDup (map fst o) ->
  JS.get o k = Some (QueryString.Prim p) ->
  JS.get (QueryString.parse (QueryString.stringify o)) k =
  Some (QueryString.QStr (QueryString.stringifyPrimitive p)).
Proof.
  intros Hnd Hget. rewrite parse_stringify.
  assert (In (k, QueryString.Prim p) (JS.entries o)) as Hin
    by (apply entries_In, get_In, Hget).
  apply in_split in Hin. destruct Hin as [e1 [e2 He]].
  pose proof (entries_NoDup o Hnd) as Hnd'. rewrite He in Hnd' |- *.
  rewrite map_app in Hnd'. simpl in Hnd'.
  pose proof (NoDup_remove_2 _ _ _ Hnd') as Hnotin.
  rewrite flat_map_app. cbn [flat_map].
  change (pairs_of (k, QueryString.Prim p))
    with [(k, QueryString.stringifyPrimitive p)].
  cbn [app].
  apply (replay_single _ _ k (QueryString.stringifyPrimitive p) JS.empty_obj).
  - intros H. apply pairs_keys in H. apply Hnotin, in_or_app. left. exact H.
  - intros H. apply pairs_keys in H. apply Hnotin, in_or_app. right. exact H.
  - reflexivity.
Qed.

(** ** The list-key pattern *)

Lemma span_inv p s a b :
  JS.span p s = (a, b) ->
  s = a +:+ b /\ JS.all_chars p a = true /\ stops p b.
Proof.
  revert a b. induction s as [|c s IH]; simpl; intros a b H.
  - injection H as <- <-. split; [reflexivity | split; [reflexivity | exact I]].
  - destruct (p c) eqn:Hc.
    + destruct (JS.span p s) as [a' b'] eqn:Hs. injection H as <- <-.
      destruct (IH a' b' eq_refl) as [-> [Ha Hb]].
      rewrite append_cons. simpl. rewrite Hc, Ha.
      split; [reflexivity | split; [reflexivity | exact Hb]].
    + injection H as <- <-.
      split; [reflexivity | split; [reflexivity | exact Hc]].
Qed.

Lemma span_app p a b :
  JS.all_chars p a = true -> stops p b -> JS.span p (a +:+ b) = (a, b).
Proof.
  induction a as [|c a IH]; intros Ha Hb.
  - rewrite append_nil_l. destruct b as [|c b]; [reflexivity|].
    simpl in *. rewrite Hb. reflexivity.
  - rewrite append_cons. simpl in *. apply andb_true_iff in Ha.
    destruct Ha as [Hc Ha]. rewrite Hc, (IH Ha Hb). reflexivity.
Qed.

Lemma digit_not_upper c : JS.is_digit c = true -> JS.is_upper c = false.
Proof.
  unfold JS.is_digit, JS.is_upper. intros H. apply andb_true_iff in H.
  destruct H as [_ H]. apply N.leb_le in H. apply andb_false_iff. left.
  apply N.leb_gt. lia.
Qed.

Lemma L_LIST_here_sound s name index :
  PayPalClient.L_LIST_here s = Some (name, index) -> ordinal s name index.
Proof.
  unfold PayPalClient.L_LIST_here.
  destruct s as [|c1 [|c2 r]]; [discriminate | discriminate |].
  destruct (Ascii.eqb_spec c1 "L") as [->|]; [|discriminate].
  destruct (Ascii.eqb_spec c2 "_") as [->|]; [|discriminate].
  cbn [andb].
  destruct (JS.span JS.is_upper r) as [n r1] eqn:H1.
  destruct (JS.span JS.is_digit r1) as [i r2] eqn:H2.
  destruct (JS.nonempty n) eqn:Hn; [|discriminate].
  destruct (JS.nonempty i) eqn:Hi; [|discriminate].
  destruct r2 as [|x r2]; [|discriminate].
  cbn [andb negb JS.nonempty]. intros [= <- <-].
  apply span_inv in H1. destruct H1 as [-> [Hup _]].
  apply span_inv in H2. destruct H2 as [-> [Hdig _]].
  rewrite append_nil_r. repeat split; assumption.
Qed.

Lemma L_LIST_here_complete s name index :
  ordinal s name index -> PayPalClient.L_LIST_here s = Some (name, index).
Proof.
  intros [-> [Hn [Hup [Hi Hdig]]]]. unfold PayPalClient.L_LIST_here.
  replace (Ascii.eqb "L" "L" && Ascii.eqb "_" "_") with true by reflexivity.
  rewrite (span_app JS.is_upper name index Hup).
  - rewrite <- (append_nil_r index) at 1.
    rewrite (span_app JS.is_digit index EmptyString Hdig I).
    rewrite Hn, Hi. reflexivity.
  - destruct index as [|c index]; [exact I|]. simpl in *.
    apply andb_true_iff in Hdig. apply digit_not_upper. tauto.
Qed.

Lemma ordinal_tail_alnum s name index :
  ordinal s name index ->
  exists t, s = String "L" (String "_" t) /\ JS.all_chars alnum t = true.
Proof.
  intros [-> [_ [Hup [_ Hdig]]]]. exists (name +:+ index). split; [reflexivity|].
  rewrite all_chars_app. apply andb_true_iff. split.
  - apply (all_chars_impl JS.is_upper); [|exact Hup].
    intros c Hc. unfold alnum. rewrite Hc. reflexivity.
  - apply (all_chars_impl JS.is_digit); [|exact Hdig].
    intros c Hc. unfold alnum. rewrite Hc. apply orb_true_r.
Qed.

(** The pattern cannot match at two positions of the same key: a second
    match would put an underscore among the letters and digits of the
    first. *)
Lemma ordinal_unique_position pre s name index name' index' :
  ordinal s name index -> ordinal (pre +:+ s) name' index' ->
  pre = EmptyString.
Proof.
  intros Hs Hps. destruct pre as [|c1 pre]; [reflexivity|]. exfalso.
  apply ordinal_tail_alnum in Hs. destruct Hs as [t [-> _]].
  apply ordinal_tail_alnum in Hps. destruct Hps as [t' [Heq Ht']].
  rewrite append_cons in Heq. injection Heq; clear Heq; intros Heq _.
  destruct pre as [|c2 pre].
  - rewrite append_nil_l in Heq. discriminate.
  - rewrite append_cons in Heq. injection Heq; clear Heq; intros Heq _.
    subst t'.
    rewrite all_chars_app in Ht'. apply andb_true_iff in Ht'.
    destruct Ht' as [_ Ht']. simpl in Ht'. discriminate.
Qed.

Lemma L_LIST_match_sound key name index :
  PayPalClient.L_LIST_match key = Some (name, index) ->
  ordinal_suffix key name index.
Proof.
  induction key as [|c key IH]; cbn [PayPalClient.L_LIST_match].
  - discriminate.
  - destruct (PayPalClient.L_LIST_here (String c key)) as [[n i]|] eqn:Hh.
    + intros [= <- <-]. exists EmptyString, (String c key).
      split; [reflexivity | apply L_LIST_here_sound, Hh].
    + intros H. destruct (IH H) as [pre [s [-> Hs]]].
      exists (String c pre), s. split; [reflexivity | exact Hs].
Qed.

Lemma L_LIST_match_complete key name index :
  ordinal_suffix key name index ->
  PayPalClient.L_LIST_match key = Some (name, index).
Proof.
  intros [pre [s [-> Hs]]]. induction pre as [|c pre IH].
  - rewrite append_nil_l. destruct s as [|c s]; [destruct Hs; discriminate|].
    cbn [PayPalClient.L_LIST_match].
    rewrite (L_LIST_here_complete _ _ _ Hs). reflexivity.
  - rewrite append_cons. cbn [PayPalClient.L_LIST_match].
    destruct (PayPalClient.L_LIST_here (String c (pre +:+ s)))
      as [[n i]|] eqn:Hh; [|exact IH].
    apply L_LIST_here_sound in Hh. rewrite <- append_cons in Hh.
    pose proof (ordinal_unique_position _ _ _ _ _ _ Hs Hh). discriminate.
Qed.

Lemma L_LIST_match_iff key name index :
  PayPalClient.L_LIST_match key = Some (name, index) <->
  ordinal_suffix key name index.
Proof. split; [apply L_LIST_match_sound | apply L_LIST_match_complete]. Qed.

(** ** The loop of [nvpToObject] *)

Lemma routes_to_match key name index :
  L_LIST_match key = Some (name, index) ->
  routes_to key (JS.parseInt index) name.
Proof. intros H. exists index. split; [apply L_LIST_match_sound, H | reflexivity]. Qed.

Lemma routes_to_inv key i name :
  routes_to key i name ->
  exists index, L_LIST_match key = Some (name, index) /\ JS.parseInt index = i.
Proof.
  intros [index [H Hi]]. exists index.
  split; [apply L_LIST_match_complete, H | exact Hi].
Qed.

Lemma step_scalar result lst key val :
  L_LIST_match key = None ->
  nvp_step (result, lst) (key, val) =
  (JS.assign result key (of_parsed val), lst).
Proof. intros H. unfold nvp_step. rewrite H. reflexivity. Qed.

Lemma step_result_routed result lst key val name index :
  L_LIST_match key = Some (name, index) ->
  fst (nvp_step (result, lst) (key, val)) = result.
Proof. intros H. unfold nvp_step. rewrite H. reflexivity. Qed.

Lemma step_lst_get result lst key val name index j :
  L_LIST_match key = Some (name, index) ->
  JS.arr_get (snd (nvp_step (result, lst) (key, val))) j =
  if decide (JS.parseInt index = j)
  then Some (JS.define (default JS.empty_obj (JS.arr_get lst (JS.parseInt index)))
               name val)
  else JS.arr_get lst j.
Proof.
  intros H. unfold nvp_step. rewrite H. cbn [snd].
  unfold JS.arr_get at 1. cbn [JS.arr_props]. rewrite lookup_alter.
  destruct (JS.arr_get lst (JS.parseInt index)) as [r|] eqn:Hr.
  - case_decide; [subst j|reflexivity]. unfold JS.arr_get in Hr.
    rewrite Hr. reflexivity.
  - unfold JS.arr_set, JS.arr_get. cbn [JS.arr_props].
    case_decide; [subst j; rewrite lookup_insert_eq; reflexivity|].
    rewrite lookup_insert_ne by assumption. reflexivity.
Qed.

Lemma step_lst_length result lst key val name index :
  L_LIST_match key = Some (name, index) ->
  JS.arr_length (snd (nvp_step (result, lst) (key, val))) =
  match JS.arr_get lst (JS.parseInt index) with
  | Some _ => JS.arr_length lst
  | None => JS.grow (JS.arr_length lst) (JS.parseInt index)
  end.
Proof.
  intros H. unfold nvp_step. rewrite H. cbn [snd JS.arr_length].
  destruct (JS.arr_get lst (JS.parseInt index)); reflexivity.
Qed.

Lemma step_sets result lst key val name index :
  L_LIST_match key = Some (name, index) ->
  slot (snd (nvp_step (result, lst) (key, val))) (JS.parseInt index) name val.
Proof.
  intros H. eexists. split.
  - rewrite (step_lst_get _ _ _ _ _ _ _ H). rewrite decide_True by reflexivity.
    reflexivity.
  - apply get_define_eq.
Qed.

Lemma step_preserves st key val i name v :
  slot (snd st) i name v -> ~ routes_to key i name ->
  slot (snd (nvp_step st (key, val))) i name v.
Proof.
  destruct st as [result lst]. intros [r [Hr Hv]] Hnot. cbn [snd] in *.
  unfold slot.
  destruct (L_LIST_match key) as [[name' index']|] eqn:Hm.
  - destruct (decide (JS.parseInt index' = i)) as [Hi|Hi].
    + eexists. split.
      * rewrite (step_lst_get _ _ _ _ _ _ i Hm), decide_True by exact Hi.
        reflexivity.
      * rewrite Hi, Hr. cbn [default]. rewrite get_define_ne; [exact Hv|].
        intros ->. apply Hnot. rewrite <- Hi. apply routes_to_match, Hm.
    + exists r. split; [|exact Hv].
      rewrite (step_lst_get _ _ _ _ _ _ i Hm), decide_False by exact Hi.
      exact Hr.
  - rewrite step_scalar by exact Hm. exists r. auto.
Qed.

Lemma loop_preserves es st i name v :
  slot (snd st) i name v ->
  (forall key val, In (key, val) es -> ~ routes_to key i name) ->
  slot (snd (loop_from es st)) i name v.
Proof.
  revert st. induction es as [|[key val] es IH]; intros st Hs Hes; [exact Hs|].
  apply IH.
  - apply step_preserves; [exact Hs|]. apply (Hes key val). left. reflexivity.
  - intros key' val' Hin. apply (Hes key' val'). right. exact Hin.
Qed.

(** The last key routed to a slot decides its value. *)
Lemma loop_slot pre post key val name index st :
  L_LIST_match key = Some (name, index) ->
  (forall key' val', In (key', val') post ->
     ~ routes_to key' (JS.parseInt index) name) ->
  slot (snd (loop_from (pre ++ (key, val) :: post) st))
    (JS.parseInt index) name val.
Proof.
  intros Hm Hpost. unfold loop_from. rewrite fold_left_app. cbn [fold_left].
  apply loop_preserves; [|exact Hpost].
  destruct (fold_left nvp_step pre st) as [result lst].
  apply step_sets, Hm.
Qed.

(** A position of the list holds a row exactly when some key was routed to
    it: the other positions stay holes. *)
Lemma loop_hole es st j :
  JS.arr_get (snd (loop_from es st)) j = None <->
  JS.arr_get (snd st) j = None /\
  forall key val name, In (key, val) es -> ~ routes_to key j name.
Proof.
  revert st. induction es as [|[key val] es IH]; intros [result lst].
  - cbn. split; [intros H; split; [exact H | intros ? ? ? []] | tauto].
  - unfold loop_from. cbn [fold_left]. fold (loop_from es (nvp_step (result, lst) (key, val))).
    rewrite IH. cbn [snd].
    destruct (L_LIST_match key) as [[name index]|] eqn:Hm.
    + rewrite (step_lst_get _ _ _ _ _ _ j Hm). case_decide as Hi.
      * split; [intros [? _]; discriminate|].
        intros [_ H]. exfalso. apply (H key val name); [left; reflexivity|].
        rewrite <- Hi. apply routes_to_match, Hm.
      * split.
        -- intros [Hj H]. split; [exact Hj|].
           intros key' val' name' [[= <- <-]|Hin].
           ++ intros Hr. apply routes_to_inv in Hr.
              destruct Hr as [index' [Hm' Hi']]. congruence.
           ++ apply (H key' val' name' Hin).
        -- intros [Hj H]. split; [exact Hj|].
           intros key' val' name' Hin. apply (H key' val' name'). right.
           exact Hin.
    + rewrite step_scalar by exact Hm. cbn [snd]. split.
      * intros [Hj H]. split; [exact Hj|].
        intros key' val' name' [[= <- <-]|Hin].
        -- intros Hr. apply routes_to_inv in Hr.
           destruct Hr as [index' [Hm' _]]. congruence.
        -- apply (H key' val' name' Hin).
      * intros [Hj H]. split; [exact Hj|].
        intros key' val' name' Hin. apply (H key' val' name'). right.
        exact Hin.
Qed.

Lemma grow_array_index len n :
  n < 4294967295 -> JS.grow len (JS.Finite n) = N.max len (n + 1).
Proof.
  intros H. unfold JS.grow, JS.is_array_index.
  apply N.ltb_lt in H. rewrite H. reflexivity.
Qed.

Lemma grow_other len i : JS.is_array_index i = false -> JS.grow len i = len.
Proof. intros H. unfold JS.grow. destruct i; [rewrite H|]; reflexivity. Qed.

Lemma grow_ge len i : len <= JS.grow len i.
Proof.
  unfold JS.grow. destruct i as [n|]; [|lia].
  destruct (JS.is_array_index (JS.Finite n)); lia.
Qed.

Lemma step_length_ge st kv :
  JS.arr_length (snd st) <= JS.arr_length (snd (nvp_step st kv)).
Proof.
  destruct st as [result lst], kv as [key val]. cbn [snd].
  destruct (L_LIST_match key) as [[name index]|] eqn:Hm.
  - rewrite (step_lst_length _ _ _ _ _ _ Hm).
    destruct (JS.arr_get lst (JS.parseInt index)); [lia | apply grow_ge].
  - rewrite step_scalar by exact Hm. cbn [snd]. lia.
Qed.

Lemma step_rows_below_length st kv :
  rows_below_length (snd st) -> rows_below_length (snd (nvp_step st kv)).
Proof.
  destruct st as [result lst], kv as [key val]. cbn [snd].
  intros Hwf n Hn Hrow.
  destruct (L_LIST_match key) as [[name index]|] eqn:Hm.
  - rewrite (step_lst_get _ _ _ _ _ _ _ Hm) in Hrow.
    rewrite (step_lst_length _ _ _ _ _ _ Hm).
    case_decide as Hi.
    + rewrite Hi. destruct (JS.arr_get lst (JS.Finite n)) eqn:Hr.
      * apply Hwf; [exact Hn | congruence].
      * rewrite grow_array_index by exact Hn. lia.
    + pose proof (Hwf n Hn Hrow).
      destruct (JS.arr_get lst (JS.parseInt index)); [assumption|].
      pose proof (grow_ge (JS.arr_length lst) (JS.parseInt index)). lia.
  - rewrite step_scalar in * by exact Hm. apply Hwf; assumption.
Qed.

Lemma step_keeps_rows st kv j :
  JS.arr_get (snd st) j <> None -> JS.arr_get (snd (nvp_step st kv)) j <> None.
Proof.
  destruct st as [result lst], kv as [key val]. cbn [snd]. intros Hj.
  destruct (L_LIST_match key) as [[name index]|] eqn:Hm.
  - rewrite (step_lst_get _ _ _ _ _ _ _ Hm). case_decide; [discriminate|].
    exact Hj.
  - rewrite step_scalar by exact Hm. exact Hj.
Qed.

Lemma step_length_tight st kv :
  length_tight (snd st) -> length_tight (snd (nvp_step st kv)).
Proof.
  intros Ht.
  assert (JS.arr_length (snd (nvp_step st kv)) = JS.arr_length (snd st) \/
          exists n, n < 4294967295 /\
            JS.arr_get (snd (nvp_step st kv)) (JS.Finite n) <> None /\
            JS.arr_length (snd (nvp_step st kv)) = n + 1) as [Hsame|Hnew].
  { destruct st as [result lst], kv as [key val]. cbn [snd].
    destruct (L_LIST_match key) as [[name index]|] eqn:Hm.
    - rewrite (step_lst_length _ _ _ _ _ _ Hm).
      destruct (JS.arr_get lst (JS.parseInt index)) eqn:Hr; [left; reflexivity|].
      destruct (JS.is_array_index (JS.parseInt index)) eqn:Hidx.
      + destruct (JS.parseInt index) as [n|] eqn:Hp; [|discriminate].
        apply N.ltb_lt in Hidx. rewrite grow_array_index by exact Hidx.
        destruct (N.max_spec (JS.arr_length lst) (n + 1)) as [[_ ->]|[_ ->]].
        * right. exists n. split; [exact Hidx|]. split; [|reflexivity].
          rewrite (step_lst_get _ _ _ _ _ _ _ Hm), Hp.
          rewrite decide_True by reflexivity. discriminate.
        * left. reflexivity.
      + left. apply grow_other, Hidx.
    - rewrite step_scalar by exact Hm. left. reflexivity. }
  - destruct Ht as [H0|[n [Hn [Hrow Hlen]]]].
    + left. congruence.
    + right. exists n. split; [exact Hn|]. split; [|congruence].
      apply step_keeps_rows, Hrow.
  - right. exact Hnew.
Qed.

Lemma loop_invariants es st :
  rows_below_length (snd st) -> length_tight (snd st) ->
  rows_below_length (snd (loop_from es st)) /\
  length_tight (snd (loop_from es st)).
Proof.
  revert st. induction es as [|kv es IH]; intros st H1 H2; [auto|].
  apply IH; [apply step_rows_below_length, H1 | apply step_length_tight, H2].
Qed.

Lemma empty_rows_below_length : rows_below_length JS.empty_array.
Proof. intros n _ H. exfalso. apply H. apply lookup_empty. Qed.

Lemma empty_length_tight : length_tight JS.empty_array.
Proof. left. reflexivity. Qed.

(** The scalar keys. *)

Lemma step_result_get result lst key val k :
  JS.get (fst (nvp_step (result, lst) (key, val))) k =
  match L_LIST_match key with
  | None =>
      if String.eqb key "__proto__" then JS.get result k
      else if String.eqb key k then Some (of_parsed val) else JS.get result k
  | Some _ => JS.get result k
  end.
Proof.
  destruct (L_LIST_match key) as [[name index]|] eqn:Hm.
  - rewrite (step_result_routed _ _ _ _ _ _ Hm). reflexivity.
  - rewrite step_scalar by exact Hm. apply get_assign.
Qed.

Lemma loop_result_other es st k :
  ~ In k (map fst es) \/ L_LIST_match k <> None \/ k = "__proto__" ->
  JS.get (fst (loop_from es st)) k = JS.get (fst st) k.
Proof.
  revert st. induction es as [|[key val] es IH]; intros [result lst] Hk;
    [reflexivity|].
  unfold loop_from. cbn [fold_left].
  fold (loop_from es (nvp_step (result, lst) (key, val))).
  rewrite IH.
  - destruct (nvp_step (result, lst) (key, val)) as [result' lst'] eqn:Hstep.
    pose proof (step_result_get result lst key val k) as Hg.
    rewrite Hstep in Hg. cbn [fst] in *. rewrite Hg.
    destruct (L_LIST_match key) eqn:Hm; [reflexivity|].
    destruct (String.eqb_spec key "__proto__"); [reflexivity|].
    destruct (String.eqb_spec key k) as [->|]; [|reflexivity].
    exfalso. destruct Hk as [Hk|[Hk|Hk]]; [|congruence..].
    apply Hk. left. reflexivity.
  - destruct Hk as [Hk|Hk]; [|tauto]. left. intros Hin. apply Hk. right.
    exact Hin.
Qed.

Lemma loop_result_scalar es st k v :
  List.NoDup (map fst es) -> In (k, v) es ->
  L_LIST_match k = None -> k <> "__proto__" ->
  JS.get (fst (loop_from es st)) k = Some (of_parsed v).
Proof.
  revert st. induction es as [|[key val] es IH]; intros [result lst] Hnd Hin Hm Hp;
    [destruct Hin|].
  inversion Hnd as [|? ? Hnotin Hnd']; subst.
  unfold loop_from. cbn [fold_left].
  fold (loop_from es (nvp_step (result, lst) (key, val))).
  destruct Hin as [[= -> ->]|Hin].
  - rewrite loop_result_other by (left; exact Hnotin).
    rewrite step_result_get, Hm.
    destruct (String.eqb_spec k "__proto__"); [contradiction|].
    rewrite String.eqb_refl. reflexivity.
  - apply IH; assumption.
Qed.

Lemma loop_row_origin es st j r :
  JS.arr_get (snd (loop_from es st)) j = Some r ->
  JS.arr_get (snd st) j <> None \/
  exists key val name, In (key, val) es /\ routes_to key j name.
Proof.
  revert st. induction es as [|[key val] es IH]; intros [result lst] Hr.
  - left. cbn in Hr. cbn [snd]. congruence.
  - unfold loop_from in Hr. cbn [fold_left] in Hr.
    fold (loop_from es (nvp_step (result, lst) (key, val))) in Hr.
    destruct (IH _ Hr) as [Hstep|[key' [val' [name' [Hin Hroute]]]]].
    + cbn [snd] in *.
      destruct (L_LIST_match key) as [[name index]|] eqn:Hm.
      * rewrite (step_lst_get _ _ _ _ _ _ j Hm) in Hstep.
        case_decide as Hi; [|left; exact Hstep].
        right. exists key, val, name. split; [left; reflexivity|].
        rewrite <- Hi. apply routes_to_match, Hm.
      * rewrite step_scalar in Hstep by exact Hm. left. exact Hstep.
    + right. exists key', val', name'. split; [right; exact Hin | exact Hroute].
Qed.

(** ** [nvpToObject] *)

Lemma nvpToObject_eq payload :
  nvpToObject payload =
  if negb (JS.arr_length (derived_list payload) =? 0)
  then JS.assign (scalars payload) "L" (Rows (derived_list payload))
  else scalars payload.
Proof.
  unfold nvpToObject, derived_list, scalars.
  destruct (nvp_loop (QueryString.parse payload)). reflexivity.
Qed.

Lemma scalars_get payload k :
  L_LIST_match k = None -> k <> "__proto__" ->
  JS.get (scalars payload) k =
  of_parsed <$> JS.get (QueryString.parse payload) k.
Proof.
  intros Hm Hp. unfold scalars, nvp_loop.
  fold (loop_from (JS.entries (QueryString.parse payload))
          (JS.empty_obj, JS.empty_array)).
  pose proof (parse_NoDup payload) as Hnd.
  destruct (JS.get (QueryString.parse payload) k) as [v|] eqn:Hg.
  - apply loop_result_scalar; [apply entries_NoDup, Hnd | | exact Hm | exact Hp].
    apply entries_In, get_In, Hg.
  - rewrite loop_result_other; [reflexivity|]. left.
    apply get_None. rewrite get_entries by exact Hnd. exact Hg.
Qed.

Lemma scalars_none payload k :
  L_LIST_match k <> None \/ k = "__proto__" ->
  JS.get (scalars payload) k = None.
Proof.
  intros H. unfold scalars, nvp_loop.
  fold (loop_from (JS.entries (QueryString.parse payload))
          (JS.empty_obj, JS.empty_array)).
  rewrite loop_result_other by tauto. reflexivity.
Qed.

Lemma derived_list_invariants payload :
  rows_below_length (derived_list payload) /\
  length_tight (derived_list payload).
Proof.
  apply loop_invariants;
    [apply empty_rows_below_length | apply empty_length_tight].
Qed.

Lemma derived_list_row payload j r :
  JS.arr_get (derived_list payload) j = Some r ->
  exists key val name,
    In (key, val) (JS.entries (QueryString.parse payload)) /\
    routes_to key j name.
Proof.
  intros H. apply loop_row_origin in H. destruct H as [H|H]; [|exact H].
  exfalso. apply H. apply lookup_empty.
Qed.

Lemma derived_list_routed payload key val j name :
  In (key, val) (JS.entries (QueryString.parse payload)) ->
  routes_to key j name ->
  JS.arr_get (derived_list payload) j <> None.
Proof.
  intros Hin Hroute Hnone. apply loop_hole in Hnone.
  destruct Hnone as [_ H]. apply (H key val name Hin Hroute).
Qed.

(** [lst.length !== 0] exactly when a key was routed to an array index. *)
Lemma derived_list_length payload :
  JS.arr_length (derived_list payload) <> 0 <->
  exists key val name n,
    In (key, val) (JS.entries (QueryString.parse payload)) /\
    routes_to key (JS.Finite n) name /\ n < 4294967295.
Proof.
  destruct (derived_list_invariants payload) as [Hbelow Htight]. split.
  - intros Hlen. destruct Htight as [H0|[n [Hn [Hrow _]]]]; [contradiction|].
    destruct (JS.arr_get (derived_list payload) (JS.Finite n)) as [r|] eqn:Hr;
      [|contradiction].
    destruct (derived_list_row _ _ _ Hr) as [key [val [name [Hin Hroute]]]].
    exists key, val, name, n. auto.
  - intros [key [val [name [n [Hin [Hroute Hn]]]]]].
    pose proof (Hbelow n Hn (derived_list_routed _ _ _ _ _ Hin Hroute)). lia.
Qed.

Lemma get_L payload :
  JS.get (nvpToObject payload) "L" =
  if JS.arr_length (derived_list payload) =? 0
  then of_parsed <$> JS.get (QueryString.parse payload) "L"
  else Some (Rows (derived_list payload)).
Proof.
  rewrite nvpToObject_eq.
  destruct (JS.arr_length (derived_list payload) =? 0); cbn [negb].
  - apply scalars_get; [reflexivity | discriminate].
  - apply get_define_eq.
Qed.

Lemma get_not_L payload k :
  k <> "L" -> JS.get (nvpToObject payload) k = JS.get (scalars payload) k.
Proof.
  intros Hk. rewrite nvpToObject_eq.
  destruct (JS.arr_length (derived_list payload) =? 0); cbn [negb];
    [reflexivity|].
  apply get_define_ne. congruence.
Qed.

(** C4, as stated, fails on the payload [L=x]: the key [L] is not an ordinal
    key, so it is copied verbatim and the result has a field [L] although no
    ordinal key was present. *)
Lemma nvpToObject_scalar_L_counterexample :
  nvpToObject "L=x" = [("L", Str "x")] /\ ~ L_iff_ordinal_key "L=x".
Proof.
  split; [reflexivity|]. intros [Hfwd _].
  destruct Hfwd as [key [val [name [index [Hin Hord]]]]]; [discriminate|].
  destruct Hin as [[= <- <-]|[]]. destruct Hord as [Heq _]. discriminate.
Qed.

(** An index of 2^32 - 1 or more is not an array index: the row becomes a
    named property of the list, whose [length] stays 0, and the decoded
    response has no field [L]. *)
Lemma nvpToObject_index_beyond_array :
  nvpToObject "L_NAME4294967295=a" = [] /\
  JS.arr_length (derived_list "L_NAME4294967295=a") = 0 /\
  slot (derived_list "L_NAME4294967295=a") (JS.Finite 4294967295) "NAME"
    (QueryString.QStr "a").
Proof.
  split; [reflexivity|]. split; [reflexivity|].
  exists [("NAME", QueryString.QStr "a")]. split; reflexivity.
Qed.

(** C4 (amended): [nvpToObject] routes the ordinal keys into the derived
    list, position by position. For the payload [L_NAME0=a&L_NAME1=b] the
    result is [{ L: [{NAME: "a"}, {NAME: "b"}] }], and for
    [L_NAME0=a&L_NAME2=b] the list has a hole at position 1. For every
    payload, with
    [lst] the derived list: a key [L_<NAME><index>] whose index [n] is an
    array index (below 2^32 - 1) makes [L] the derived list, and [lst[n]]
    is a row whose field [NAME] holds the value of the last key routed to
    that field; a position holds a row only if some key was routed to it,
    so the positions no key names are holes, and [length] is one more than
    the highest index routed (nothing is compacted); and [L] is the derived
    list exactly when some key ending in [L_<NAME><index>], with an array
    index, was present. When there is none, [L] is whatever a plain key [L]
    of the payload gave, and absent without one. *)
Theorem nvpToObject_routes_ordinal_keys (payload : string) :
  let es := JS.entries (QueryString.parse payload) in
  let lst := derived_list payload in
  nvpToObject "L_NAME0=a&L_NAME1=b" =
    [("L", Rows (JS.arr_of_list [[("NAME", QueryString.QStr "a")];
                                 [("NAME", QueryString.QStr "b")]]))] /\
  JS.arr_elements (derived_list "L_NAME0=a&L_NAME2=b") =
    [Some [("NAME", QueryString.QStr "a")]; None;
     Some [("NAME", QueryString.QStr "b")]] /\
  (forall pre post key val name index n,
      es = (pre ++ (key, val) :: post)%list ->
      ordinal key name index ->
      JS.parseInt index = JS.Finite n -> n < 4294967295 ->
      (forall key' val', In (key', val') post ->
         ~ routes_to key' (JS.Finite n) name) ->
      JS.get (nvpToObject payload) "L" = Some (Rows lst) /\
      n < JS.arr_length lst /\
      slot lst (JS.Finite n) name val) /\
  (forall n,
      JS.arr_get lst (JS.Finite n) = None <->
      forall key val name, In (key, val) es ->
        ~ routes_to key (JS.Finite n) name) /\
  (JS.arr_length lst = 0 \/
   exists key val name n,
     In (key, val) es /\ routes_to key (JS.Finite n) name /\
     n < 4294967295 /\ JS.arr_length lst = n + 1) /\
  (JS.get (nvpToObject payload) "L" = Some (Rows lst) <->
   exists key val name n,
     In (key, val) es /\ routes_to key (JS.Finite n) name /\
     n < 4294967295) /\
  ((forall key val name n,
      In (key, val) es -> routes_to key (JS.Finite n) name ->
      4294967295 <= n) ->
   JS.get (nvpToObject payload) "L" =
   of_parsed <$> JS.get (QueryString.parse payload) "L").
Proof.
  intros es lst.
  destruct (derived_list_invariants payload) as [Hbelow Htight].
  fold lst in Hbelow, Htight.
  assert (forall key val name n,
             In (key, val) es -> routes_to key (JS.Finite n) name ->
             n < 4294967295 -> (JS.arr_length lst =? 0) = false) as Hnonzero.
  { intros key val name n Hin Hroute Hn. apply N.eqb_neq.
    apply derived_list_length. exists key, val, name, n. auto. }
  split; [reflexivity|]. split; [reflexivity|].
  split; [|split; [|split; [|split]]].
  - intros pre post key val name index n Hes Hord Hparse Hn Hlast.
    assert (L_LIST_match key = Some (name, index)) as Hm.
    { apply L_LIST_match_complete. exists EmptyString, key.
      split; [reflexivity | exact Hord]. }
    assert (In (key, val) es) as Hin
      by (rewrite Hes; apply in_elt).
    assert (routes_to key (JS.Finite n) name) as Hroute
      by (rewrite <- Hparse; apply routes_to_match, Hm).
    split; [|split].
    + rewrite get_L. fold lst.
      rewrite (Hnonzero key val name n Hin Hroute Hn). reflexivity.
    + apply Hbelow; [exact Hn|].
      apply (derived_list_routed payload key val _ name Hin Hroute).
    + unfold lst, derived_list, nvp_loop. fold es. rewrite Hes, <- Hparse.
      apply (loop_slot pre post key val name index _ Hm).
      rewrite Hparse. exact Hlast.
  - intros n. unfold lst, derived_list, nvp_loop. fold es.
    fold (loop_from es (@JS.empty_obj nvpval, @JS.empty_array row)).
    rewrite loop_hole. cbn [snd]. split; [tauto|].
    intros H. split; [apply lookup_empty | exact H].
  - destruct Htight as [H0|[n [Hn [Hrow Hlen]]]]; [left; exact H0|].
    right. destruct (JS.arr_get lst (JS.Finite n)) as [r|] eqn:Hr;
      [|contradiction].
    destruct (derived_list_row _ _ _ Hr) as [key [val [name [Hin Hroute]]]].
    exists key, val, name, n. auto.
  - rewrite get_L. fold lst. split.
    + intros HL. apply derived_list_length. fold lst.
      destruct (JS.arr_length lst =? 0) eqn:Hz; [|apply N.eqb_neq, Hz].
      destruct (JS.get (QueryString.parse payload) "L") as [[s|l]|];
        discriminate.
    + intros [key [val [name [n [Hin [Hroute Hn]]]]]].
      rewrite (Hnonzero key val name n Hin Hroute Hn). reflexivity.
  - intros Hnone. rewrite get_L. fold lst.
    destruct (JS.arr_length lst =? 0) eqn:Hz; [reflexivity|].
    apply N.eqb_neq in Hz. apply derived_list_length in Hz.
    destruct Hz as [key [val [name [n [Hin [Hroute Hn]]]]]].
    pose proof (Hnone key val name n Hin Hroute). lia.
Qed.

Lemma nvpToObject_routes_ordinal_keys_witness :
  let payload := "L_NAME0=a&L_NAME2=b" in
  JS.get (nvpToObject payload) "L" = Some (Rows (derived_list payload)) /\
  0 < JS.arr_length (derived_list payload) /\
  slot (derived_list payload) (JS.Finite 0) "NAME" (QueryString.QStr "a").
Proof.
  intros payload.
  destruct (nvpToObject_routes_ordinal_keys payload) as [_ [_ [Hroute _]]].
  apply (Hroute [] [("L_NAME2", QueryString.QStr "b")] "L_NAME0"
           (QueryString.QStr "a") "NAME" "0" 0).
  - reflexivity.
  - repeat split; reflexivity.
  - reflexivity.
  - lia.
  - intros key' val' [[= <- <-]|[]] Hr. apply routes_to_inv in Hr.
    destruct Hr as [index [Hm Hp]]. vm_compute in Hm.
    injection Hm as <-. vm_compute in Hp. discriminate.
Defined.

Lemma step_keeps_field st kv i name :
  (exists v, slot (snd st) i name v) ->
  exists v, slot (snd (nvp_step st kv)) i name v.
Proof.
  destruct st as [result lst], kv as [key val]. cbn [snd].
  intros [v [r [Hr Hv]]]. unfold slot.
  destruct (L_LIST_match key) as [[name' index']|] eqn:Hm.
  - destruct (decide (JS.parseInt index' = i)) as [Hi|Hi].
    + destruct (String.eqb_spec name' name) as [->|Hne].
      * exists val. eexists. split.
        -- rewrite (step_lst_get _ _ _ _ _ _ i Hm), decide_True by exact Hi.
           reflexivity.
        -- apply get_define_eq.
      * exists v. eexists. split.
        -- rewrite (step_lst_get _ _ _ _ _ _ i Hm), decide_True by exact Hi.
           reflexivity.
        -- rewrite Hi, Hr. cbn [default]. rewrite get_define_ne by exact Hne.
           exact Hv.
    + exists v, r. split; [|exact Hv].
      rewrite (step_lst_get _ _ _ _ _ _ i Hm), decide_False by exact Hi.
      exact Hr.
  - rewrite step_scalar by exact Hm. exists v, r. auto.
Qed.

Lemma loop_keeps_field es st i name :
  (exists v, slot (snd st) i name v) ->
  exists v, slot (snd (loop_from es st)) i name v.
Proof.
  revert st. induction es as [|kv es IH]; intros st H; [exact H|].
  apply IH, step_keeps_field, H.
Qed.

Lemma loop_field es st key val name index :
  In (key, val) es -> L_LIST_match key = Some (name, index) ->
  exists v, slot (snd (loop_from es st)) (JS.parseInt index) name v.
Proof.
  intros Hin Hm. apply in_split in Hin. destruct Hin as [pre [post ->]].
  unfold loop_from. rewrite fold_left_app. cbn [fold_left].
  apply loop_keeps_field. exists val.
  destruct (fold_left nvp_step pre st) as [result lst].
  apply step_sets, Hm.
Qed.

(** C10: the pattern is anchored at the end of the key only. Every key of
    the payload that ends with [L_<LETTERS><DIGITS>], whatever precedes
    (as in [XL_NAME0] and [TOTAL_FOO1]), is not copied into the result as a
    scalar key: it is routed into the derived list, in the row the list
    holds under the parsed index and under the matched name. That field
    holds the value of the last key of the payload routed to it, and the
    list is the field [L] of the result when the index is an array index. *)
Theorem nvpToObject_pattern_unanchored (payload key : string)
    (val : QueryString.parsed) (name index : string) :
  In (key, val) (JS.entries (QueryString.parse payload)) ->
  ordinal_suffix key name index ->
  ordinal_suffix "XL_NAME0" "NAME" "0" /\
  ordinal_suffix "TOTAL_FOO1" "FOO" "1" /\
  JS.get (nvpToObject payload) key = None /\
  (exists v, slot (derived_list payload) (JS.parseInt index) name v) /\
  (forall pre post,
      JS.entries (QueryString.parse payload) = (pre ++ (key, val) :: post)%list ->
      (forall key' val', In (key', val') post ->
         ~ routes_to key' (JS.parseInt index) name) ->
      slot (derived_list payload) (JS.parseInt index) name val) /\
  (JS.is_array_index (JS.parseInt index) = true ->
   JS.get (nvpToObject payload) "L" = Some (Rows (derived_list payload))).
Proof.
  intros Hin Hsuffix.
  pose proof (L_LIST_match_complete _ _ _ Hsuffix) as Hm.
  split; [|split; [|split; [|split; [|split]]]].
  - exists "X", "L_NAME0". split; [reflexivity|]. repeat split; reflexivity.
  - exists "TOTA", "L_FOO1". split; [reflexivity|]. repeat split; reflexivity.
  - rewrite get_not_L.
    + apply scalars_none. left. congruence.
    + intros ->. discriminate.
  - apply (loop_field _ _ key val name index Hin Hm).
  - intros pre post Hes Hlast. unfold derived_list, nvp_loop. rewrite Hes.
    apply (loop_slot pre post key val name index _ Hm Hlast).
  - intros Hidx. rewrite get_L.
    destruct (JS.parseInt index) as [n|] eqn:Hp; [|discriminate].
    apply N.ltb_lt in Hidx.
    assert (JS.arr_length (derived_list payload) <> 0) as Hlen.
    { apply derived_list_length. exists key, val, name, n.
      split; [exact Hin|]. split; [|exact Hidx].
      rewrite <- Hp. apply routes_to_match, Hm. }
    apply N.eqb_neq in Hlen. rewrite Hlen. reflexivity.
Qed.

Lemma nvpToObject_pattern_unanchored_witness :
  let payload := "XL_NAME0=a&TOTAL_FOO1=b" in
  JS.get (nvpToObject payload) "TOTAL_FOO1" = None /\
  slot (derived_list payload) (JS.Finite 1) "FOO" (QueryString.QStr "b") /\
  JS.get (nvpToObject payload) "L" = Some (Rows (derived_list payload)).
Proof.
  intros payload.
  assert (In ("TOTAL_FOO1", QueryString.QStr "b")
             (JS.entries (QueryString.parse payload))) as Hin
    by (right; left; reflexivity).
  assert (ordinal_suffix "TOTAL_FOO1" "FOO" "1") as Hsuffix
    by (exists "TOTA", "L_FOO1"; split; [reflexivity|];
        repeat split; reflexivity).
  destruct (nvpToObject_pattern_unanchored payload "TOTAL_FOO1"
              (QueryString.QStr "b") "FOO" "1" Hin Hsuffix)
    as [_ [_ [Hscalar [_ [Hlast HL]]]]].
  split; [exact Hscalar|]. split.
  - apply (Hlast [("XL_NAME0", QueryString.QStr "a")] []);
      [reflexivity | intros key' val' []].
  - apply HL. reflexivity.
Defined.

(** ** Encoding then decoding *)

Lemma to_values_keys m : map fst (to_values m) = map fst m.
Proof. unfold to_values. rewrite map_map. reflexivity. Qed.

Lemma get_to_values m k : JS.get (to_values m) k = str <$> JS.get m k.
Proof.
  induction m as [|[k0 v0] m IH]; [reflexivity|]. simpl.
  destruct (String.eqb k0 k); [reflexivity | exact IH].
Qed.

Lemma parse_objectToNVP m k :
  List.NoDup (map fst m) ->
  JS.get (QueryString.parse (objectToNVP (to_values m))) k =
  QueryString.QStr <$> JS.get m k.
Proof.
  intros Hnd. unfold objectToNVP.
  destruct (JS.get m k) as [v|] eqn:Hg.
  - apply (parse_stringify_prim _ k (QueryString.PStr v)).
    + rewrite to_values_keys. exact Hnd.
    + rewrite get_to_values, Hg. reflexivity.
  - apply parse_stringify_none. rewrite get_to_values, Hg. reflexivity.
Qed.

(** C8, as stated, fails on the map with the one key [__proto__]: the key is
    not of the form [L_<NAME><index>], [querystring] encodes and decodes it,
    but [result[key] = value] on the object [result = {}] reaches the setter
    of [Object.prototype] and creates no property. *)
Lemma roundtrip_proto_counterexample :
  let m := [("__proto__", "x")] in
  List.NoDup (map fst m) /\
  (forall k name index, In k (map fst m) -> ~ ordinal k name index) /\
  objectToNVP (to_values m) = "__proto__=x" /\
  nvpToObject "__proto__=x" = [] /\
  ~ decodes_back m.
Proof.
  intros m. split; [|split; [|split; [|split]]].
  - constructor; [intros [] | constructor].
  - intros k name index [<-|[]] [Heq _]. discriminate.
  - reflexivity.
  - reflexivity.
  - intros H. specialize (H "__proto__"). discriminate.
Qed.

(** A key that ends with [L_<NAME><index>] after other characters is not of
    that form either, and is not given back: it is routed into [L]. *)
Lemma roundtrip_suffix_key :
  let m := [("XL_NAME0", "a")] in
  (forall k name index, In k (map fst m) -> ~ ordinal k name index) /\
  ~ decodes_back m.
Proof.
  intros m. split.
  - intros k name index [<-|[]] [Heq _]. discriminate.
  - intros H. specialize (H "XL_NAME0"). discriminate.
Qed.

(** C8 (amended): for every flat map with string values, none of whose keys
    ends with [L_<NAME><index>] (the pattern of the code, which is anchored
    at the end of the key only) and none of whose keys is [__proto__],
    decoding the string produced by encoding the map yields the map back:
    the same keys with the same values. *)
Theorem nvp_roundtrip (m : JS.obj string) :
  List.NoDup (map fst m) ->
  (forall k name index, In k (map fst m) -> ~ ordinal_suffix k name index) ->
  ~ In "__proto__" (map fst m) ->
  forall k,
    JS.get (nvpToObject (objectToNVP (to_values m))) k = Str <$> JS.get m k.
Proof.
  intros Hnd Hplain Hproto k.
  set (payload := objectToNVP (to_values m)).
  assert (forall key, JS.get m key <> None -> L_LIST_match key = None)
    as Hkeys.
  { intros key Hkey. destruct (L_LIST_match key) as [[name index]|] eqn:Hm;
      [|reflexivity].
    exfalso. apply (Hplain key name index).
    - destruct (JS.get m key) as [v|] eqn:Hg; [|contradiction].
      apply get_In in Hg. apply (in_map fst) in Hg. exact Hg.
    - apply L_LIST_match_sound, Hm. }
  assert (JS.arr_length (derived_list payload) = 0) as Hlen.
  { destruct (N.eq_dec (JS.arr_length (derived_list payload)) 0) as [H|H];
      [exact H|].
    apply derived_list_length in H.
    destruct H as [key [val [name [n [Hin [Hroute _]]]]]].
    apply routes_to_inv in Hroute. destruct Hroute as [index [Hm _]].
    apply (proj1 (entries_In _ _)) in Hin.
    apply In_get in Hin; [|apply parse_NoDup].
    unfold payload in Hin. rewrite parse_objectToNVP in Hin by exact Hnd.
    rewrite Hkeys in Hm; [discriminate|].
    destruct (JS.get m key); [discriminate | discriminate]. }
  rewrite nvpToObject_eq. fold payload. rewrite Hlen. cbn [N.eqb negb].
  destruct (L_LIST_match k) as [[name index]|] eqn:Hm.
  - rewrite scalars_none by (left; congruence).
    destruct (JS.get m k) as [v|] eqn:Hg; [|reflexivity].
    rewrite Hkeys in Hm by congruence. discriminate.
  - destruct (String.eqb_spec k "__proto__") as [->|Hk].
    + rewrite scalars_none by (right; reflexivity).
      apply get_None in Hproto. rewrite Hproto. reflexivity.
    + rewrite scalars_get by assumption. unfold payload.
      rewrite parse_objectToNVP by exact Hnd.
      destruct (JS.get m k); reflexivity.
Qed.

Lemma nvp_roundtrip_witness :
  let m := [("ACK", "Success"); ("TOKEN", "EC-1 2&3=4"); ("L", "x")] in
  JS.get (nvpToObject (objectToNVP (to_values m))) "TOKEN" =
  Some (Str "EC-1 2&3=4").
Proof.
  intros m. apply (nvp_roundtrip m).
  - repeat constructor; simpl; intuition discriminate.
  - intros k name index Hin Hsuffix. apply L_LIST_match_complete in Hsuffix.
    destruct Hin as [<-|[<-|[<-|[]]]]; discriminate.
  - simpl. intuition discriminate.
Defined.

(** ** Transport *)

(** [pRetry] around a POST: the same request is sent again while the
    network fails it, [retries] times at most, and nothing is sent after the
    first response. *)
Lemma pRetry_post {E} (transport_error : string -> E) url headers body
    (retries : nat) (net : Net.network) (log : list Net.request) :
  let req := Net.mk_request url headers body in
  let run :=
    Net.pRetry (Net.post transport_error url headers body) retries net log in
  exists k : nat,
    (k <= retries)%nat /\
    (forall j : nat, (j < k)%nat ->
       exists reason, net (log ++ repeat req j)%list req = Net.Fails reason) /\
    snd run = (log ++ repeat req (S k))%list /\
    match net (log ++ repeat req k)%list req with
    | Net.Responds text => fst run = Net.Ok text
    | Net.Fails reason =>
        fst run = Net.Thrown (transport_error reason) /\ k = retries
    end.
Proof.
  intros req. revert log. induction retries as [|r IH]; intros log run.
  - exists 0%nat. subst run. cbn [Net.pRetry]. unfold Net.post. fold req.
    cbn [repeat]. rewrite app_nil_r.
    split; [lia|]. split; [intros j Hj; lia|].
    destruct (net log req); cbn [fst snd]; auto.
  - assert (forall j, ((log ++ [req]) ++ repeat req j
                       = log ++ repeat req (S j))%list) as Hshift
      by (intros j; rewrite <- app_assoc; reflexivity).
    destruct (net log req) as [text|reason] eqn:Hfirst.
    + assert (run = (Net.Ok text, (log ++ [req])%list)) as ->.
      { subst run. cbn [Net.pRetry]. unfold Net.post. fold req.
        rewrite Hfirst. reflexivity. }
      exists 0%nat. cbn [repeat fst snd]. rewrite app_nil_r, Hfirst.
      split; [lia|]. split; [intros j Hj; lia|]. auto.
    + assert (run = Net.pRetry (Net.post transport_error url headers body)
                      r net (log ++ [req])%list) as ->.
      { subst run. cbn [Net.pRetry]. unfold Net.post at 1. fold req.
        rewrite Hfirst. reflexivity. }
      destruct (IH (log ++ [req])%list) as [k [Hk [Hfail [Hlog Hlast]]]].
      exists (S k). split; [lia|]. split; [|split].
      * intros [|j] Hj.
        -- exists reason. cbn [repeat]. rewrite app_nil_r. exact Hfirst.
        -- rewrite <- Hshift. apply Hfail. lia.
      * rewrite Hlog. apply Hshift.
      * rewrite <- Hshift.
        destruct (net ((log ++ [req]) ++ repeat req k)%list req);
          [exact Hlast|].
        destruct Hlast as [Hthrown ->]. auto.
Qed.

Lemma pRetry_post_first {E} (transport_error : string -> E) url headers body
    (retries : nat) (net : Net.network) (log : list Net.request) text :
  net log (Net.mk_request url headers body) = Net.Responds text ->
  Net.pRetry (Net.post transport_error url headers body) retries net log =
  (Net.Ok text, (log ++ [Net.mk_request url headers body])%list).
Proof.
  intros H. destruct retries; cbn [Net.pRetry]; unfold Net.post;
    rewrite H; reflexivity.
Qed.

(** ** [ipnVerify] *)

(** C3, as stated, fails when the first attempt does not get through:
    [ipnVerify] wraps the POST in [pRetry], so the message is posted a
    second time. *)
Lemma ipnVerify_retry_counterexample :
  let c := new (mk_options true "user" "pwd" "sig" None) in
  ipnVerify c "txn_id=1" (fails_once "VERIFIED") [] =
    (Net.Ok "VERIFIED",
     [verify_request c "txn_id=1"; verify_request c "txn_id=1"]) /\
  ~ (exists r, snd (ipnVerify c "txn_id=1" (fails_once "VERIFIED") []) = [r]).
Proof.
  intros c. split; [reflexivity|]. intros [r Hr]. discriminate.
Qed.

(** C3 (amended): for every client and message, [ipnVerify] posts
    ['cmd=_notify-validate&' + message] to the IPN endpoint, which is never
    the RPC endpoint, and returns the raw text of the response. When the
    first attempt is answered that is the only POST. An attempt the
    transport fails is retried, the same request being posted again, up to
    the ten retries [p-retry] makes by default; the text returned is that
    of the first attempt answered, and the error of the eleventh attempt is
    thrown when none is. *)
Theorem ipnVerify_posts_to_ipn_endpoint (options : PaypalOptions)
    (message : string) (net : Net.network) (log : list Net.request) :
  let c := new options in
  let req := verify_request c message in
  let run := ipnVerify c message net log in
  Net.req_url req = ipnUrl c /\ ipnUrl c <> url c /\
  Net.req_body req = "cmd=_notify-validate&" +:+ message /\
  (forall text, net log req = Net.Responds text ->
     run = (Net.Ok text, (log ++ [req])%list)) /\
  exists k : nat,
    (k <= 10)%nat /\
    (forall j : nat, (j < k)%nat ->
       exists reason, net (log ++ repeat req j)%list req = Net.Fails reason) /\
    snd run = (log ++ repeat req (S k))%list /\
    match net (log ++ repeat req k)%list req with
    | Net.Responds text => fst run = Net.Ok text
    | Net.Fails reason =>
        fst run = Net.Thrown (TransportError reason) /\ k = 10%nat
    end.
Proof.
  intros c req run.
  split; [reflexivity|]. split; [|split; [reflexivity|split]].
  - subst c. unfold new. cbn [ipnUrl url].
    destruct (sandbox options); discriminate.
  - intros text Htext. apply pRetry_post_first. exact Htext.
  - apply (pRetry_post TransportError (ipnUrl c) []
             ("cmd=_notify-validate&" +:+ message)
             Net.pRetry_default_retries net log).
Qed.

Lemma ipnVerify_posts_to_ipn_endpoint_witness :
  let c := new (mk_options false "user" "pwd" "sig" None) in
  ipnVerify c "txn_id=1" (fun _ _ => Net.Responds "INVALID") [] =
  (Net.Ok "INVALID", [verify_request c "txn_id=1"]).
Proof.
  intros c.
  destruct (ipnVerify_posts_to_ipn_endpoint
              (mk_options false "user" "pwd" "sig" None) "txn_id=1"
              (fun _ _ => Net.Responds "INVALID") [])
    as [_ [_ [_ [Hfirst _]]]].
  apply (Hfirst "INVALID"). reflexivity.
Defined.

(** ** [doRequest] *)

Lemma is_success_iff resultObj :
  is_success resultObj = true <-> ack_is_success resultObj.
Proof.
  unfold is_success, ack_is_success.
  destruct (JS.get resultObj "ACK") as [[ack|l|lst]|].
  - rewrite orb_true_iff, !String.eqb_eq. split.
    + intros [->| ->]; auto.
    + intros [[= ->]|[= ->]]; auto.
  - split; [discriminate | intros [H|H]; discriminate].
  - split; [discriminate | intros [H|H]; discriminate].
  - split; [discriminate | intros [H|H]; discriminate].
Qed.

Lemma doRequest_eq c method data net log :
  doRequest c method data net log =
  match Net.pRetry
          (Net.post TransportError (url c)
             [("content-type", "application/x-www-form-urlencoded")]
             (objectToNVP (request_object c method data)))
          (retries (retryOptions c)) net log with
  | (Net.Ok text, log') =>
      (if is_success (nvpToObject text) then Net.Ok (nvpToObject text)
       else Net.Thrown (PayPalClientError text (nvpToObject text)), log')
  | (Net.Thrown e, log') => (Net.Thrown e, log')
  end.
Proof.
  unfold doRequest, Net.bind.
  destruct (Net.pRetry _ _ net log) as [[text|e] log']; [|reflexivity].
  destruct (is_success (nvpToObject text)); reflexivity.
Qed.

(** C5: when the transport delivers a response, after the failed attempts
    the retry policy absorbed, [doRequest] returns the decoded response
    exactly when its [ACK] is [Success] or [SuccessWithWarning]; for every
    other [ACK], and for none, it throws a [PayPalClientError] that carries
    the raw text of the response and the decoded map. In both cases the
    request that was answered is the last one sent: a rejection is not
    retried. *)
Theorem doRequest_classifies_ack (c : PayPalClient) (method : PAYPAL_METHODS)
    (data : JS.obj QueryString.value) (net : Net.network)
    (log : list Net.request) (k : nat) (text : string) :
  let req := rpc_request c method data in
  (k <= retries (retryOptions c))%nat ->
  (forall j : nat, (j < k)%nat ->
     exists reason, net (log ++ repeat req j)%list req = Net.Fails reason) ->
  net (log ++ repeat req k)%list req = Net.Responds text ->
  (ack_is_success (nvpToObject text) ->
   doRequest c method data net log =
   (Net.Ok (nvpToObject text), (log ++ repeat req (S k))%list)) /\
  (~ ack_is_success (nvpToObject text) ->
   doRequest c method data net log =
   (Net.Thrown (PayPalClientError text (nvpToObject text)),
    (log ++ repeat req (S k))%list)).
Proof.
  intros req Hk Hfail Hanswer. subst req. unfold rpc_request in *.
  destruct (pRetry_post TransportError (url c)
              [("content-type", "application/x-www-form-urlencoded")]
              (objectToNVP (request_object c method data))
              (retries (retryOptions c)) net log)
    as [k' [Hk' [Hfail' [Hlog Hlast]]]].
  assert (k' = k) as ->.
  { destruct (Nat.lt_trichotomy k' k) as [Hlt|[Heq|Hgt]]; [|exact Heq|].
    - destruct (Hfail k' Hlt) as [reason Hr]. rewrite Hr in Hlast.
      destruct Hlast as [_ ->]. lia.
    - destruct (Hfail' k Hgt) as [reason Hr]. congruence. }
  rewrite Hanswer in Hlast. rewrite doRequest_eq.
  destruct (Net.pRetry _ _ net log) as [res log'].
  cbn [fst snd] in Hlog, Hlast. subst res log'.
  split; intros Hack.
  - apply is_success_iff in Hack. rewrite Hack. reflexivity.
  - destruct (is_success (nvpToObject text)) eqn:Hs; [|reflexivity].
    exfalso. apply Hack, is_success_iff, Hs.
Qed.

Lemma doRequest_classifies_ack_witness :
  let c := new (mk_options true "user" "pwd" "sig" None) in
  let text := "ACK=Failure&L_ERRORCODE0=10002" in
  doRequest c SetExpressCheckout [] (fails_once text) [] =
  (Net.Thrown (PayPalClientError text (nvpToObject text)),
   [rpc_request c SetExpressCheckout []; rpc_request c SetExpressCheckout []]).
Proof.
  intros c text.
  apply (doRequest_classifies_ack c SetExpressCheckout [] (fails_once text)
           [] 1 text).
  - vm_compute. lia.
  - intros j Hj. exists "ECONNRESET". destruct j; [reflexivity | lia].
  - reflexivity.
  - intros [H|H]; vm_compute in H; discriminate.
Defined.

Lemma spread_NoDup {V} (a b : JS.obj V) :
  List.NoDup (map fst a) -> List.NoDup (map fst (JS.spread a b)).
Proof.
  unfold JS.spread. revert a.
  induction (JS.entries b) as [|kv l IH]; intros a H; [exact H|].
  apply IH, define_NoDup, H.
Qed.

Lemma request_object_NoDup c method data :
  List.NoDup (map fst (request_object c method data)).
Proof.
  unfold request_object. cbn [fold_left fst snd].
  repeat apply define_NoDup. apply spread_NoDup. constructor.
Qed.

Lemma request_object_fields c method data :
  let o := request_object c method data in
  JS.get o "USER" = Some (str (user c)) /\
  JS.get o "PWD" = Some (str (pwd c)) /\
  JS.get o "SIGNATURE" = Some (str (signature c)) /\
  JS.get o "METHOD" = Some (str (method_name method)) /\
  JS.get o "VERSION" = Some (str PAYPAL_VERSION).
Proof.
  unfold request_object. cbn [fold_left fst snd].
  repeat split;
    repeat first [ rewrite get_define_eq; reflexivity
                 | rewrite get_define_ne by discriminate ].
Qed.

(** C7: for every method and every data map, the object [doRequest] encodes
    has [USER], [PWD], [SIGNATURE], [METHOD] and [VERSION] set to the
    client's credentials, the method name and ["204"], whatever [data] holds
    under those names; the payload decodes to these values; and every
    request [doRequest] sends carries that payload to the RPC endpoint. *)
Theorem doRequest_fixed_fields (c : PayPalClient) (method : PAYPAL_METHODS)
    (data : JS.obj QueryString.value) (net : Net.network)
    (log : list Net.request) :
  let o := request_object c method data in
  let payload := objectToNVP o in
  (JS.get o "USER" = Some (str (user c)) /\
   JS.get o "PWD" = Some (str (pwd c)) /\
   JS.get o "SIGNATURE" = Some (str (signature c)) /\
   JS.get o "METHOD" = Some (str (method_name method)) /\
   JS.get o "VERSION" = Some (str "204")) /\
  (JS.get (QueryString.parse payload) "USER" = Some (QueryString.QStr (user c)) /\
   JS.get (QueryString.parse payload) "PWD" = Some (QueryString.QStr (pwd c)) /\
   JS.get (QueryString.parse payload) "SIGNATURE" =
     Some (QueryString.QStr (signature c)) /\
   JS.get (QueryString.parse payload) "METHOD" =
     Some (QueryString.QStr (method_name method)) /\
   JS.get (QueryString.parse payload) "VERSION" =
     Some (QueryString.QStr "204")) /\
  exists k : nat,
    (k <= retries (retryOptions c))%nat /\
    snd (doRequest c method data net log) =
    (log ++ repeat (Net.mk_request (url c)
                      [("content-type", "application/x-www-form-urlencoded")]
                      payload) (S k))%list.
Proof.
  intros o payload.
  pose proof (request_object_fields c method data) as Hfields.
  fold o in Hfields. destruct Hfields as [Hu [Hp [Hs [Hm Hv]]]].
  pose proof (request_object_NoDup c method data) as Hnd. fold o in Hnd.
  split; [auto|]. split.
  - unfold payload, objectToNVP.
    repeat split;
      match goal with
      | H : JS.get o ?k = Some (str ?v)
        |- JS.get _ ?k = Some (QueryString.QStr _) =>
          exact (parse_stringify_prim o k (QueryString.PStr v) Hnd H)
      end.
  - destruct (pRetry_post TransportError (url c)
                [("content-type", "application/x-www-form-urlencoded")]
                payload (retries (retryOptions c)) net log)
      as [k [Hk [_ [Hlog _]]]].
    exists k. split; [exact Hk|]. rewrite doRequest_eq. fold o. fold payload.
    destruct (Net.pRetry _ _ net log) as [[text|e] log']; exact Hlog.
Qed.

(** ** The reconciliation helper *)

Lemma decimal_inj n m : QueryString.decimal n = QueryString.decimal m -> n = m.
Proof.
  unfold QueryString.decimal. intros H.
  assert (Some (N.to_uint n) = Some (N.to_uint m)) as Hu
    by (rewrite <- !NilEmpty.usu, H; reflexivity).
  injection Hu as Hu.
  rewrite <- (DecimalN.Unsigned.of_to n), <- (DecimalN.Unsigned.of_to m), Hu.
  reflexivity.
Qed.

Section HelperFacts.

Import PayPalHelper.

Context {Customer Outcome : Type}.

Abbreviation call := (PayPalHelper.call Customer).
Abbreviation world := (PayPalHelper.world Customer).
Abbreviation collaborators := (PayPalHelper.collaborators Customer Outcome).

Implicit Types (env : collaborators) (w : world) (customer : Customer)
  (invoice : Invoice).

Lemma one_of_iff s l : one_of s l = true <-> In s l.
Proof.
  unfold one_of. rewrite existsb_exists. split.
  - intros [x [Hin Hx]]. apply String.eqb_eq in Hx. subst. exact Hin.
  - intros Hin. exists s. split; [exact Hin | apply String.eqb_refl].
Qed.

(** A run that finds an agreement and a draft or open invoice reaches the
    charge, and continues with its result. *)
Lemma processInvoice_reaches_charge env w customer invoice agreementId :
  agreement_of env w customer = Some agreementId ->
  status invoice = "draft" \/ status invoice = "open" ->
  let options := charge_options agreementId invoice (attempts_of w invoice) in
  let w1 := at_charge w customer invoice in
  let w2 := record (chargeCustomer options) w1 in
  processInvoice customer invoice env w =
  match charge_result env w1 options with
  | Net.Thrown e => (Net.Thrown e, w2)
  | Net.Ok outcome =>
      let st := paymentStatus outcome in
      if String.eqb st "Completed" then
        let u := updateInvoiceWithPaypalTransactionId invoice
                   (transactionId outcome) in
        (Net.Ok (Some (resolves_to env w2 u,
                       resolves_to env (record u w2)
                         (payInvoiceOutOfBand invoice))),
         record (payInvoiceOutOfBand invoice) (record u w2))
      else if one_of st ["Pending"; "In-Progress"] then (Net.Ok None, w2)
      else if one_of st ["Denied"; "Failed"; "Voided"; "Expired"] then
        (Net.Thrown paymentFailed,
         mk_world (calls w2 ++ [updatePaymentAttempts invoice])%list
           (<[id invoice := attempts_of w invoice + 1]> (attempts w)))
      else
        (Net.Thrown (internalValidationError "processInvoice"
                       "Unexpected PayPal transaction response." (Some st)),
         record (logError "processInvoice" st) w2)
  end.
Proof.
  intros Hagreement Hstatus options w1 w2. subst options w2.
  unfold charge_options.
  unfold processInvoice, bind at 1, ledger_getCustomerPaypalAgreement.
  rewrite Hagreement.
  assert (one_of (status invoice) ["draft"; "open"] = true) as ->
    by (apply one_of_iff; simpl; destruct Hstatus as [->| ->]; auto).
  cbn [negb].
  assert (forall (k : unit -> M (option (Outcome * Outcome))),
             bind (if String.eqb (status invoice) "draft"
                   then bind (ledger_call (finalizeInvoice invoice))
                          (fun _ => ret tt)
                   else ret tt) k env
               (record (getCustomerPaypalAgreement customer) w) =
             k tt env
               (mk_world
                  (calls w ++ getCustomerPaypalAgreement customer ::
                     (if String.eqb (status invoice) "draft"
                      then [finalizeInvoice invoice] else []))%list
                  (attempts w))) as Hdraft.
  { intros k. unfold bind, ledger_call, ret, record. cbn [calls attempts].
    destruct (String.eqb (status invoice) "draft"); cbn [calls attempts].
    - rewrite <- app_assoc. reflexivity.
    - reflexivity. }
  rewrite Hdraft. clear Hdraft.
  unfold bind at 1, ledger_getPaymentAttempts, attempts_of at 1.
  cbn [attempts]. fold (attempts_of w invoice).
  assert (record (getPaymentAttempts invoice)
            (mk_world
               (calls w ++ getCustomerPaypalAgreement customer ::
                  (if String.eqb (status invoice) "draft"
                   then [finalizeInvoice invoice] else []))%list
               (attempts w)) = w1) as ->.
  { unfold record, w1, at_charge, before_charge. cbn [calls attempts].
    rewrite <- app_assoc. reflexivity. }
  unfold bind at 1, helper_chargeCustomer.
  destruct (charge_result env w1 _) as [outcome|e]; [|reflexivity].
  cbn zeta.
  destruct (String.eqb (paymentStatus outcome) "Completed"); [reflexivity|].
  destruct (one_of (paymentStatus outcome) ["Pending"; "In-Progress"]);
    [reflexivity|].
  destruct (one_of (paymentStatus outcome)
              ["Denied"; "Failed"; "Voided"; "Expired"]); reflexivity.
Qed.

Lemma eqb_false_of_ne (a b : string) : a <> b -> String.eqb a b = false.
Proof. apply String.eqb_neq. Qed.

Lemma one_of_false s l : ~ In s l -> one_of s l = false.
Proof.
  intros H. destruct (one_of s l) eqn:Ho; [|reflexivity].
  apply one_of_iff in Ho. contradiction.
Qed.

(** What a run does with the outcome of its charge. *)
Lemma processInvoice_after_charge env w customer invoice
    (agreementId : string) (outcome : ChargeOutcome) :
  agreement_of env w customer = Some agreementId ->
  status invoice = "draft" \/ status invoice = "open" ->
  let options := charge_options agreementId invoice (attempts_of w invoice) in
  let w1 := at_charge w customer invoice in
  let w2 := record (chargeCustomer options) w1 in
  charge_result env w1 options = Net.Ok outcome ->
  let st := paymentStatus outcome in
  processInvoice customer invoice env w =
  if String.eqb st "Completed" then
    let u := updateInvoiceWithPaypalTransactionId invoice
               (transactionId outcome) in
    (Net.Ok (Some (resolves_to env w2 u,
                   resolves_to env (record u w2)
                     (payInvoiceOutOfBand invoice))),
     record (payInvoiceOutOfBand invoice) (record u w2))
  else if one_of st ["Pending"; "In-Progress"] then (Net.Ok None, w2)
  else if one_of st ["Denied"; "Failed"; "Voided"; "Expired"] then
    (Net.Thrown paymentFailed,
     mk_world (calls w2 ++ [updatePaymentAttempts invoice])%list
       (<[id invoice := attempts_of w invoice + 1]> (attempts w)))
  else
    (Net.Thrown (internalValidationError "processInvoice"
                   "Unexpected PayPal transaction response." (Some st)),
     record (logError "processInvoice" st) w2).
Proof.
  intros Hagreement Hstatus options w1 w2 Hcharge st.
  rewrite (processInvoice_reaches_charge env w customer invoice agreementId
             Hagreement Hstatus).
  fold options. fold w1. rewrite Hcharge. reflexivity.
Qed.

(** C1: a [processInvoice] run that reaches the charge (an agreement is on
    file and the invoice is a draft or open) and whose charge resolves
    branches on [paymentStatus], and the four branches cover every string.
    [Completed]: the ledger is told the transaction id, then to mark the
    invoice paid out of band, in that order, and the two outcomes are
    returned. [Pending] or [In-Progress]: nothing is called after the
    charge and the result is [undefined], not an error. [Denied], [Failed],
    [Voided] or [Expired]: [updatePaymentAttempts(invoice)] is called once,
    nothing else, and the payment-failed error is thrown. Any other status:
    the internal-validation error carrying that status is thrown; the
    anomaly is logged and the ledger is not called. *)
Theorem processInvoice_branches_on_status env w customer invoice
    (agreementId : string) (outcome : ChargeOutcome) :
  agreement_of env w customer = Some agreementId ->
  status invoice = "draft" \/ status invoice = "open" ->
  let options := charge_options agreementId invoice (attempts_of w invoice) in
  let w1 := at_charge w customer invoice in
  let w2 := record (chargeCustomer options) w1 in
  charge_result env w1 options = Net.Ok outcome ->
  let st := paymentStatus outcome in
  let run := processInvoice customer invoice env w in
  (st = "Completed" ->
   let u := updateInvoiceWithPaypalTransactionId invoice
              (transactionId outcome) in
   let p := payInvoiceOutOfBand invoice in
   run = (Net.Ok (Some (resolves_to env w2 u, resolves_to env (record u w2) p)),
          mk_world (calls w2 ++ [u; p])%list (attempts w))) /\
  (unresolved st -> run = (Net.Ok None, w2)) /\
  (terminal_failure st ->
   run = (Net.Thrown paymentFailed,
          mk_world (calls w2 ++ [updatePaymentAttempts invoice])%list
            (<[id invoice := attempts_of w invoice + 1]> (attempts w)))) /\
  (st <> "Completed" -> ~ unresolved st -> ~ terminal_failure st ->
   run = (Net.Thrown (internalValidationError "processInvoice"
                        "Unexpected PayPal transaction response." (Some st)),
          mk_world (calls w2 ++ [logError "processInvoice" st])%list
            (attempts w)) /\
   is_ledger_mutation (@logError Customer "processInvoice" st) = false).
Proof.
  intros Hagreement Hstatus options w1 w2 Hcharge st run.
  pose proof (processInvoice_after_charge env w customer invoice agreementId
                outcome Hagreement Hstatus Hcharge) as Hrun.
  fold options w1 w2 st run in Hrun. cbv zeta in Hrun.
  rewrite Hrun. clear Hrun. split; [|split; [|split]].
  - intros ->. cbn [String.eqb Ascii.eqb Bool.eqb]. cbn zeta.
    unfold record. cbn [calls attempts]. rewrite <- app_assoc. reflexivity.
  - intros [-> | ->]; reflexivity.
  - intros [-> | [-> | [-> | ->]]]; reflexivity.
  - intros Hc Hu Ht. split; [|reflexivity].
    rewrite (eqb_false_of_ne _ _ Hc).
    rewrite one_of_false
      by (unfold unresolved in Hu; simpl; intuition congruence).
    rewrite one_of_false
      by (unfold terminal_failure in Ht; simpl; intuition congruence).
    reflexivity.
Qed.

Lemma charged_keys_before_charge customer invoice :
  charged_keys (before_charge customer invoice) = [].
Proof.
  unfold before_charge, charged_keys.
  destruct (String.eqb (status invoice) "draft"); reflexivity.
Qed.

Lemma run_keys_reaching_charge env w customer invoice agreementId :
  agreement_of env w customer = Some agreementId ->
  status invoice = "draft" \/ status invoice = "open" ->
  run_keys env w customer invoice =
  [id invoice +:+ QueryString.decimal (attempts_of w invoice)].
Proof.
  intros Hagreement Hstatus. unfold run_keys.
  rewrite (processInvoice_reaches_charge env w customer invoice agreementId
             Hagreement Hstatus).
  set (options := charge_options agreementId invoice (attempts_of w invoice)).
  assert (forall tail,
             charged_keys tail = [] ->
             charged_keys
               (drop (length (calls w))
                  ((calls (at_charge w customer invoice) ++
                    [chargeCustomer options]) ++ tail)%list) =
             [id invoice +:+ QueryString.decimal (attempts_of w invoice)])
    as Hkeys.
  { intros tail Htail. unfold at_charge. cbn [calls].
    rewrite <- !app_assoc, drop_app_length. unfold charged_keys in *.
    rewrite !flat_map_app.
    fold (charged_keys (before_charge customer invoice)).
    rewrite charged_keys_before_charge, Htail. reflexivity. }
  destruct (charge_result env (at_charge w customer invoice) options)
    as [outcome|e].
  - cbn zeta.
    destruct (String.eqb (paymentStatus outcome) "Completed").
    { unfold record. cbn [snd calls]. rewrite <- app_assoc.
      apply Hkeys. reflexivity. }
    destruct (one_of (paymentStatus outcome) ["Pending"; "In-Progress"]).
    { unfold record. cbn [snd calls].
      rewrite <- (app_nil_r (_ ++ [chargeCustomer options])).
      apply Hkeys. reflexivity. }
    destruct (one_of (paymentStatus outcome)
                ["Denied"; "Failed"; "Voided"; "Expired"]).
    { unfold record. cbn [snd calls]. apply Hkeys. reflexivity. }
    unfold record. cbn [snd calls]. apply Hkeys. reflexivity.
  - unfold record. cbn [snd calls].
    rewrite <- (app_nil_r (_ ++ [chargeCustomer options])).
    apply Hkeys. reflexivity.
Qed.

(** C2: the idempotency key [processInvoice] charges with is
    [invoice.id + paymentAttempts], the count being the one
    [ledger.getPaymentAttempts(invoice)] gives. Two runs on the same invoice
    that find the same count charge with the same key, whatever else
    differs. When the charge ends in [Denied], [Failed], [Voided] or
    [Expired], the run leaves the ledger's count one higher, and a later run
    on that invoice charges with a different key. *)
Theorem processInvoice_idempotency_key env w customer invoice
    (agreementId : string) :
  agreement_of env w customer = Some agreementId ->
  status invoice = "draft" \/ status invoice = "open" ->
  let key := id invoice +:+ QueryString.decimal (attempts_of w invoice) in
  run_keys env w customer invoice = [key] /\
  (forall env' w' customer' agreementId',
      agreement_of env' w' customer' = Some agreementId' ->
      attempts_of w' invoice = attempts_of w invoice ->
      run_keys env' w' customer' invoice = [key]) /\
  (forall outcome,
      charge_result env (at_charge w customer invoice)
        (charge_options agreementId invoice (attempts_of w invoice)) =
        Net.Ok outcome ->
      terminal_failure (paymentStatus outcome) ->
      let w' := snd (processInvoice customer invoice env w) in
      attempts_of w' invoice = attempts_of w invoice + 1 /\
      forall env' customer' agreementId',
        agreement_of env' w' customer' = Some agreementId' ->
        exists key', run_keys env' w' customer' invoice = [key'] /\
                     key' <> key).
Proof.
  intros Hagreement Hstatus key. split; [|split].
  - apply (run_keys_reaching_charge env w customer invoice agreementId);
      assumption.
  - intros env' w' customer' agreementId' Hagreement' Hsame.
    rewrite (run_keys_reaching_charge env' w' customer' invoice agreementId')
      by assumption.
    rewrite Hsame. reflexivity.
  - intros outcome Hcharge Hterminal w'.
    assert (attempts_of w' invoice = attempts_of w invoice + 1) as Hcount.
    { subst w'.
      rewrite (processInvoice_after_charge env w customer invoice agreementId
                 outcome Hagreement Hstatus Hcharge).
      assert (String.eqb (paymentStatus outcome) "Completed" = false) as ->
        by (destruct Hterminal as [-> | [-> | [-> | ->]]]; reflexivity).
      assert (one_of (paymentStatus outcome) ["Pending"; "In-Progress"]
              = false) as ->
        by (destruct Hterminal as [-> | [-> | [-> | ->]]]; reflexivity).
      assert (one_of (paymentStatus outcome)
                ["Denied"; "Failed"; "Voided"; "Expired"] = true) as ->
        by (destruct Hterminal as [-> | [-> | [-> | ->]]]; reflexivity).
      cbn [snd]. unfold attempts_of at 1. cbn [attempts].
      rewrite lookup_insert_eq. reflexivity. }
    split; [exact Hcount|].
    intros env' customer' agreementId' Hagreement'.
    eexists. split.
    + apply (run_keys_reaching_charge env' w' customer' invoice agreementId');
        assumption.
    + rewrite Hcount. subst key. intros Heq.
      apply String.app_inj in Heq. apply decimal_inj in Heq. lia.
Qed.

(** C6: [processInvoice] fails fast when its preconditions are unmet. With
    no agreement on file it throws the validation error [Agreement ID not
    found.]; with an agreement and an invoice that is neither a draft nor
    open it throws [Invoice in invalid state.]. In both cases the only call
    made is the read [getCustomerPaypalAgreement(customer)]: there is no
    charge, no ledger mutation, and the payment-attempt counts are
    untouched. *)
Theorem processInvoice_fails_fast env w customer invoice :
  let read := getCustomerPaypalAgreement customer in
  let untouched := mk_world (calls w ++ [read])%list (attempts w) in
  is_charge read = false /\ is_ledger_mutation read = false /\
  (agreement_of env w customer = None ->
   processInvoice customer invoice env w =
   (Net.Thrown (internalValidationError "processInvoice"
                  "Agreement ID not found." None), untouched)) /\
  (forall agreementId,
      agreement_of env w customer = Some agreementId ->
      status invoice <> "draft" -> status invoice <> "open" ->
      processInvoice customer invoice env w =
      (Net.Thrown (internalValidationError "processInvoice"
                     "Invoice in invalid state." None), untouched)).
Proof.
  intros read untouched. split; [reflexivity|]. split; [reflexivity|]. split.
  - intros Hnone. unfold processInvoice, bind, ledger_getCustomerPaypalAgreement.
    rewrite Hnone. reflexivity.
  - intros agreementId Hsome Hdraft Hopen.
    unfold processInvoice, bind at 1, ledger_getCustomerPaypalAgreement.
    rewrite Hsome.
    rewrite one_of_false by (simpl; intuition congruence).
    reflexivity.
Qed.

(** C9: for an invoice whose amount due is zero, [processZeroInvoice] calls
    [ledger.finalizeInvoice(invoice)] then
    [ledger.payInvoiceOutOfBand(invoice)], once each and nothing else (so
    PayPal is not charged), and returns the pair of their outcomes. *)
Theorem processZeroInvoice_finalizes_and_pays env w invoice :
  amount_due invoice = 0 ->
  let f := finalizeInvoice invoice in
  let p := payInvoiceOutOfBand invoice in
  processZeroInvoice invoice env w =
  (Net.Ok (resolves_to env w f, resolves_to env (record f w) p),
   mk_world (calls w ++ [f; p])%list (attempts w)) /\
  filter (fun c => is_charge c) [f; p] = [].
Proof.
  intros _ f p. split; [|reflexivity].
  unfold processZeroInvoice, bind, ledger_call, ret, record.
  cbn [calls attempts]. rewrite <- app_assoc. reflexivity.
Qed.

End HelperFacts.

(** *** The helper on the invoice of the tests *)
Lemma processInvoice_branches_on_status_witness :
  let invoice := example_invoice "open" 499 in
  PayPalHelper.processInvoice "cus_1" invoice
    (example_collaborators "Denied") fresh_world =
  (Net.Thrown PayPalHelper.paymentFailed,
   PayPalHelper.mk_world
     [PayPalHelper.getCustomerPaypalAgreement "cus_1";
      PayPalHelper.getPaymentAttempts invoice;
      PayPalHelper.chargeCustomer example_charge;
      PayPalHelper.updatePaymentAttempts invoice]
     (<["inv_0000000000" := 1]> ∅)).
Proof.
  intros invoice.
  destruct (processInvoice_branches_on_status
              (example_collaborators "Denied") fresh_world "cus_1" invoice
              "agreement-id"
              (PayPalHelper.mk_outcome "Denied" "transaction-id")
              eq_refl (or_intror eq_refl) eq_refl)
    as [_ [_ [Hfailed _]]].
  apply Hfailed. left. reflexivity.
Defined.

Lemma processInvoice_idempotency_key_witness :
  let invoice := example_invoice "open" 499 in
  run_keys (example_collaborators "Denied") fresh_world "cus_1" invoice =
  ["inv_00000000000"].
Proof.
  intros invoice.
  destruct (processInvoice_idempotency_key
              (example_collaborators "Denied") fresh_world "cus_1" invoice
              "agreement-id" eq_refl (or_intror eq_refl))
    as [Hkey _].
  exact Hkey.
Defined.

Lemma processInvoice_fails_fast_witness :
  let invoice := example_invoice "paid" 499 in
  PayPalHelper.processInvoice "cus_1" invoice
    (example_collaborators "Completed") fresh_world =
  (Net.Thrown (PayPalHelper.internalValidationError "processInvoice"
                 "Invoice in invalid state." None),
   PayPalHelper.mk_world [PayPalHelper.getCustomerPaypalAgreement "cus_1"] ∅).
Proof.
  intros invoice.
  destruct (processInvoice_fails_fast
              (example_collaborators "Completed") fresh_world "cus_1" invoice)
    as [_ [_ [_ Hstate]]].
  apply (Hstate "agreement-id"); [reflexivity | discriminate | discriminate].
Defined.

Lemma processZeroInvoice_finalizes_and_pays_witness :
  let invoice := example_invoice "draft" 0 in
  PayPalHelper.processZeroInvoice invoice
    (example_collaborators "Completed") fresh_world =
  (Net.Ok ("{}", "{}"),
   PayPalHelper.mk_world
     [PayPalHelper.finalizeInvoice invoice;
      PayPalHelper.payInvoiceOutOfBand invoice] ∅).
Proof.
  intros invoice.
  destruct (processZeroInvoice_finalizes_and_pays
              (example_collaborators "Completed") fresh_world invoice eq_refl)
    as [Hrun _].
  exact Hrun.
Defined.

(** The second run after a denied charge uses the next key. *)
Example second_run_after_denial :
  let invoice := example_invoice "open" 499 in
  let w' := snd (PayPalHelper.processInvoice "cus_1" invoice
                   (example_collaborators "Denied") fresh_world) in
  run_keys (example_collaborators "Completed") w' "cus_1" invoice =
  ["inv_00000000001"].
Proof. reflexivity. Qed.

(** A caller cannot override the protocol fields. *)
Example caller_cannot_override :
  let c := new (mk_options true "user" "pwd" "sig" None) in
  objectToNVP
    (request_object c DoReferenceTransaction
       [("VERSION", str "1"); ("AMT", str "4.99"); ("USER", str "other")]) =
  "VERSION=204&AMT=4.99&USER=user&METHOD=DoReferenceTransaction&PWD=pwd&SIGNATURE=sig".
Proof. reflexivity. Qed.

(** * Further properties of the client *)

(** ** The pattern [L_LIST] *)

(** X1: [key.match(L_LIST)] succeeds, with the groups [name] and [index],
    exactly when [key] ends with [L_], then [name] made of one or more
    uppercase letters, then [index] made of one or more decimal digits. A
    key has at most one such ending, so the groups are determined by the
    key, and the match fails exactly when the key has no such ending. *)
Theorem L_LIST_matches_suffix (key : string) :
  (forall name index,
      L_LIST_match key = Some (name, index) <->
      ordinal_suffix key name index) /\
  (forall name index name' index',
      ordinal_suffix key name index -> ordinal_suffix key name' index' ->
      name = name' /\ index = index') /\
  (L_LIST_match key = None <->
   forall name index, ~ ordinal_suffix key name index).
Proof.
  split; [|split].
  - intros name index.
    split; [apply L_LIST_match_sound | apply L_LIST_match_complete].
  - intros name index name' index' H H'.
    apply L_LIST_match_complete in H, H'. rewrite H in H'.
    injection H' as -> ->. auto.
  - split.
    + intros Hnone name index H. apply L_LIST_match_complete in H. congruence.
    + intros H. destruct (L_LIST_match key) as [[name index]|] eqn:Hm;
        [|reflexivity].
      exfalso. apply (H name index), L_LIST_match_sound, Hm.
Qed.

Lemma L_LIST_matches_suffix_witness :
  L_LIST_match "PAYMENTREQUEST_0_L_AMT12" = Some ("AMT", "12") /\
  L_LIST_match "L_amt12" = None.
Proof.
  destruct (L_LIST_matches_suffix "PAYMENTREQUEST_0_L_AMT12") as [Hiff _].
  split; [|reflexivity]. apply Hiff.
  exists "PAYMENTREQUEST_0_", "L_AMT12". split; [reflexivity|].
  repeat split; reflexivity.
Defined.

(** ** The scalar fields of [nvpToObject] *)

Lemma no_suffix_no_match k :
  (forall name index, ~ ordinal_suffix k name index) -> L_LIST_match k = None.
Proof.
  intros H. destruct (L_LIST_match k) as [[name index]|] eqn:Hm; [|reflexivity].
  exfalso. apply (H name index), L_LIST_match_sound, Hm.
Qed.

(** X2: apart from [L], the fields of [nvpToObject(payload)] are the keys
    [querystring.parse] found that do not end with the list pattern and are
    not [__proto__], each with the value it was parsed to (a string, or the
    array of the values of a repeated key). A key that ends with the list
    pattern, and [__proto__], is never a field of the result. *)
Theorem nvpToObject_scalar_fields (payload k : string) :
  k <> "L" ->
  ((forall name index, ~ ordinal_suffix k name index) -> k <> "__proto__" ->
   JS.get (nvpToObject payload) k =
   of_parsed <$> JS.get (QueryString.parse payload) k) /\
  ((exists name index, ordinal_suffix k name index) \/ k = "__proto__" ->
   JS.get (nvpToObject payload) k = None).
Proof.
  intros HL. rewrite get_not_L by exact HL. split.
  - intros Hplain Hproto. apply scalars_get; [|exact Hproto].
    apply no_suffix_no_match, Hplain.
  - intros [[name [index H]]|H]; apply scalars_none.
    + left. apply L_LIST_match_complete in H. congruence.
    + right. exact H.
Qed.

Lemma nvpToObject_scalar_fields_witness :
  JS.get (nvpToObject "ACK=Success&TOKEN=EC-1&TOKEN=EC-2&XL_A0=z") "TOKEN" =
  Some (Strs ["EC-1"; "EC-2"]) /\
  JS.get (nvpToObject "ACK=Success&TOKEN=EC-1&TOKEN=EC-2&XL_A0=z") "XL_A0" =
  None.
Proof.
  assert ("TOKEN" <> "L") as H1 by discriminate.
  assert ("XL_A0" <> "L") as H2 by discriminate.
  split.
  - apply (proj1 (nvpToObject_scalar_fields
                    "ACK=Success&TOKEN=EC-1&TOKEN=EC-2&XL_A0=z" "TOKEN" H1));
      [|discriminate].
    intros name index H. apply L_LIST_match_complete in H. discriminate.
  - apply (proj2 (nvpToObject_scalar_fields
                    "ACK=Success&TOKEN=EC-1&TOKEN=EC-2&XL_A0=z" "XL_A0" H2)).
    left. exists "A", "0", "X", "L_A0". split; [reflexivity|].
    repeat split; reflexivity.
Defined.

(** ** The rows of the derived list *)

Lemma step_field_origin st key val i r name v :
  JS.arr_get (snd (nvp_step st (key, val))) i = Some r ->
  JS.get r name = Some v ->
  (exists r0, JS.arr_get (snd st) i = Some r0 /\ JS.get r0 name = Some v) \/
  (v = val /\ routes_to key i name).
Proof.
  destruct st as [result lst]. cbn [snd]. intros Hr Hv.
  destruct (L_LIST_match key) as [[name' index']|] eqn:Hm.
  - rewrite (step_lst_get _ _ _ _ _ _ i Hm) in Hr.
    destruct (decide (JS.parseInt index' = i)) as [Hi|Hi].
    + injection Hr as <-. rewrite get_define in Hv.
      destruct (String.eqb_spec name' name) as [->|Hne].
      * injection Hv as <-. right. split; [reflexivity|].
        rewrite <- Hi. apply routes_to_match, Hm.
      * left. rewrite Hi in Hv.
        destruct (JS.arr_get lst i) as [r0|]; [|discriminate].
        exists r0. auto.
    + left. exists r. auto.
  - rewrite step_scalar in Hr by exact Hm. left. exists r. auto.
Qed.

Lemma loop_field_origin es st i r name v :
  JS.arr_get (snd (loop_from es st)) i = Some r ->
  JS.get r name = Some v ->
  (exists r0, JS.arr_get (snd st) i = Some r0 /\ JS.get r0 name = Some v) \/
  (exists key, In (key, v) es /\ routes_to key i name).
Proof.
  revert st. induction es as [|[key val] es IH]; intros st Hr Hv.
  - left. exists r. auto.
  - unfold loop_from in Hr. cbn [fold_left] in Hr.
    fold (loop_from es (nvp_step st (key, val))) in Hr.
    destruct (IH _ Hr Hv) as [[r0 [Hr0 Hv0]]|[key' [Hin Hroute]]].
    + destruct (step_field_origin _ _ _ _ _ _ _ Hr0 Hv0)
        as [Hold|[-> Hroute]].
      * left. exact Hold.
      * right. exists key. split; [left; reflexivity | exact Hroute].
    + right. exists key'. split; [right; exact Hin | exact Hroute].
Qed.

(** X3: the rows of the derived list hold nothing the payload did not
    send. Whenever [lst[i]] is a row and that row has a field [name] with
    value [v], some key of the payload ends with [L_<name><index>], for an
    index that parses to [i], and carries [v]. *)
Theorem derived_rows_hold_routed_values (payload : string) (i : JS.num)
    (r : row) (name : string) (v : QueryString.parsed) :
  JS.arr_get (derived_list payload) i = Some r ->
  JS.get r name = Some v ->
  exists key,
    In (key, v) (JS.entries (QueryString.parse payload)) /\
    routes_to key i name.
Proof.
  intros Hr Hv.
  destruct (loop_field_origin _ _ _ _ _ _ Hr Hv) as [[r0 [Hr0 _]]|H];
    [|exact H].
  exfalso. cbn [snd] in Hr0. unfold JS.arr_get in Hr0. cbn in Hr0.
  rewrite lookup_empty in Hr0. discriminate.
Qed.

Lemma derived_rows_hold_routed_values_witness :
  exists key,
    In (key, QueryString.QStr "b")
       (JS.entries (QueryString.parse "L_NAME0=a&L_NAME2=b")) /\
    routes_to key (JS.Finite 2) "NAME".
Proof.
  apply (derived_rows_hold_routed_values "L_NAME0=a&L_NAME2=b" (JS.Finite 2)
           [("NAME", QueryString.QStr "b")] "NAME" (QueryString.QStr "b"));
    reflexivity.
Defined.

(** ** Encoding any value, then decoding *)

Lemma collected_snoc L cur v :
  collected L = cur ->
  collected (L ++ [v]) =
  Some match cur with
       | None => QueryString.QStr v
       | Some (QueryString.QStr c) => QueryString.QArr [c; v]
       | Some (QueryString.QArr l) => QueryString.QArr (l ++ [v])
       end.
Proof.
  intros <-. destruct L as [|a [|b L]]; [reflexivity | reflexivity |].
  reflexivity.
Qed.

Lemma get_addKeyValue_eq o key val :
  JS.get (QueryString.addKeyValue o key val) key =
  Some match JS.get o key with
       | None => QueryString.QStr val
       | Some (QueryString.QStr c) => QueryString.QArr [c; val]
       | Some (QueryString.QArr l) => QueryString.QArr (l ++ [val])
       end.
Proof.
  unfold QueryString.addKeyValue.
  destruct (JS.get o key) as [[c|l]|]; apply get_define_eq.
Qed.

Lemma replay_values pairs acc k L :
  JS.get acc k = collected L ->
  JS.get (replay pairs acc) k = collected (L ++ values_of k pairs).
Proof.
  revert acc L. induction pairs as [|[k0 v0] pairs IH]; intros acc L Hacc.
  - cbn [values_of]. rewrite app_nil_r. exact Hacc.
  - change (replay ((k0, v0) :: pairs) acc)
      with (replay pairs (QueryString.addKeyValue acc k0 v0)).
    cbn [values_of]. destruct (String.eqb_spec k0 k) as [->|Hne].
    + replace (L ++ v0 :: values_of k pairs)%list
        with ((L ++ [v0]) ++ values_of k pairs)%list
        by (rewrite <- app_assoc; reflexivity).
      apply IH. rewrite get_addKeyValue_eq. symmetry.
      apply collected_snoc. symmetry. exact Hacc.
    + apply IH. rewrite get_addKeyValue_ne by exact Hne. exact Hacc.
Qed.

Lemma values_of_app k a b :
  values_of k (a ++ b) = (values_of k a ++ values_of k b)%list.
Proof.
  induction a as [|[k0 v0] a IH]; [reflexivity|]. cbn [app values_of].
  destruct (String.eqb k0 k); rewrite IH; reflexivity.
Qed.

Lemma values_of_absent k l : ~ In k (map fst l) -> values_of k l = [].
Proof.
  induction l as [|[k0 v0] l IH]; [reflexivity|]. cbn [map fst values_of].
  intros H. destruct (String.eqb_spec k0 k) as [->|Hne].
  - exfalso. apply H. left. reflexivity.
  - apply IH. intros Hin. apply H. right. exact Hin.
Qed.

Lemma values_of_pairs_of k v : values_of k (pairs_of (k, v)) = rendered v.
Proof.
  unfold pairs_of, rendered. cbn [fst snd]. destruct v as [p|l].
  - cbn [values_of]. rewrite String.eqb_refl. reflexivity.
  - induction l as [|p l IH]; [reflexivity|]. cbn [map values_of fst snd].
    rewrite String.eqb_refl, IH. reflexivity.
Qed.

(** What [querystring.parse] reads back from what [querystring.stringify]
    wrote, key by key. *)
Lemma parse_stringify_get (o : JS.obj QueryString.value) k :
  List.NoDup (map fst o) ->
  JS.get (QueryString.parse (QueryString.stringify o)) k =
  match JS.get o k with
  | Some v => collected (rendered v)
  | None => None
  end.
Proof.
  intros Hnd. destruct (JS.get o k) as [v|] eqn:Hget;
    [|apply parse_stringify_none, Hget].
  rewrite parse_stringify.
  assert (In (k, v) (JS.entries o)) as Hin by (apply entries_In, get_In, Hget).
  apply in_split in Hin. destruct Hin as [e1 [e2 He]].
  pose proof (entries_NoDup o Hnd) as Hnd'. rewrite He in Hnd' |- *.
  rewrite map_app in Hnd'. simpl in Hnd'.
  pose proof (NoDup_remove_2 _ _ _ Hnd') as Hnotin.
  change (JS.get (replay (flat_map pairs_of (e1 ++ (k, v) :: e2)) JS.empty_obj)
            k = collected (rendered v)).
  rewrite (replay_values _ JS.empty_obj k []) by reflexivity.
  rewrite flat_map_app. cbn [flat_map app].
  rewrite !values_of_app, values_of_pairs_of.
  rewrite !values_of_absent, app_nil_r; [reflexivity | |].
  - intros H. apply pairs_keys in H. apply Hnotin, in_or_app. right. exact H.
  - intros H. apply pairs_keys in H. apply Hnotin, in_or_app. left. exact H.
Qed.




(** ** The characters of a payload *)

Lemma form_char_wire c : wire c = true -> form_char c = true.
Proof. intros H. unfold form_char. rewrite H. reflexivity. Qed.

Lemma field_form_chars ks : JS.all_chars form_char (field ks) = true.
Proof.
  unfold field. rewrite all_chars_app. cbn [JS.all_chars].
  rewrite !(all_chars_impl wire form_char _ form_char_wire)
    by apply escape_wire.
  reflexivity.
Qed.

Lemma join_amp_form_chars (l : list (string * string)) :
  JS.all_chars form_char (join_amp (map field l)) = true.
Proof.
  induction l as [|ks l IH]; [reflexivity|].
  destruct l as [|ks' l]; [apply field_form_chars|].
  change (join_amp (map field (ks :: ks' :: l)))
    with (field ks +:+ String "&" (join_amp (map field (ks' :: l)))).
  rewrite all_chars_app, field_form_chars. cbn [JS.all_chars andb].
  exact IH.
Qed.

(** X5: whatever the object holds, [objectToNVP] writes only letters, digits,
    the marks [!'()*-._~], and the characters [%], [=] and [&]: no space, no
    [+], no control character and no byte outside ASCII appears in a
    payload. *)
Theorem objectToNVP_is_form_encoded (object : JS.obj QueryString.value) :
  JS.all_chars form_char (objectToNVP object) = true.
Proof.
  unfold objectToNVP. rewrite stringify_join. apply join_amp_form_chars.
Qed.

(** ** What [doRequest] sends *)

Lemma doRequest_posted c method data net log :
  posted_only (rpc_request c method data) (retries (retryOptions c)) log
    (snd (doRequest c method data net log)).
Proof.
  destruct (pRetry_post TransportError (url c)
              [("content-type", "application/x-www-form-urlencoded")]
              (objectToNVP (request_object c method data))
              (retries (retryOptions c)) net log)
    as [k [Hk [_ [Hlog _]]]].
  exists k. split; [exact Hk|]. rewrite doRequest_eq.
  destruct (Net.pRetry _ _ net log) as [[text|e] log']; exact Hlog.
Qed.



(** The fields of a request body, read back by [querystring.parse]. *)
Lemma request_body_fields c method data k :
  JS.get (QueryString.parse (Net.req_body (rpc_request c method data))) k =
  match JS.get (request_object c method data) k with
  | Some v => collected (rendered v)
  | None => None
  end.
Proof.
  unfold rpc_request, objectToNVP. cbn [Net.req_body].
  apply parse_stringify_get, request_object_NoDup.
Qed.

(** Both sides are looked up key by key in objects written out in full. *)
Ltac read_fields :=
  match goal with
  | |- context [JS.get (request_object ?c ?m ?data) ?k] =>
      let o := fresh "o" in
      set (o := request_object c m data); vm_compute in o; subst o
  end;
  match goal with
  | |- _ = JS.get ?fields ?k =>
      let f := fresh "f" in
      set (f := fields); vm_compute in f; subst f
  end;
  cbn [JS.get];
  repeat match goal with
         | |- context [String.eqb ?a ?b] =>
             destruct (String.eqb a b); [reflexivity|]
         end;
  reflexivity.

(** X7: [doReferenceTransaction] posts, to the RPC endpoint and nothing
    else, a body whose fields are [AMT], [INVNUM], [MSGSUBID],
    [PAYMENTACTION=Sale], [PAYMENTTYPE=instant] and [REFERENCEID] together
    with the five protocol fields. The amount, the invoice number, the
    idempotency key and the agreement id are read back exactly as given,
    whatever characters they hold, and no other field is present. *)
Theorem doReferenceTransaction_request (c : PayPalClient)
    (options : DoReferenceTransactionOptions) (net : Net.network)
    (log : list Net.request) :
  exists req,
    posted_only req (retries (retryOptions c)) log
      (snd (doReferenceTransaction c options net log)) /\
    Net.req_url req = url c /\
    forall k,
      JS.get (QueryString.parse (Net.req_body req)) k =
      JS.get (doReferenceTransaction_fields c options) k.
Proof.
  eexists. split; [apply doRequest_posted|]. split; [reflexivity|].
  intros k. rewrite request_body_fields.
  destruct c, options. read_fields.
Qed.

(** An agreement id that holds [&VERSION=1] stays inside [REFERENCEID]. *)
Example charge_fields_are_not_injected :
  let c := new (mk_options true "user" "pwd" "sig" None) in
  let options := mk_charge "4.99" "B-1&VERSION=1" "inv_1" "inv_10" in
  exists req,
    snd (doReferenceTransaction c options
           (fun _ _ => Net.Responds "ACK=Success") []) = [req] /\
    JS.get (QueryString.parse (Net.req_body req)) "REFERENCEID" =
      Some (QueryString.QStr "B-1&VERSION=1") /\
    JS.get (QueryString.parse (Net.req_body req)) "VERSION" =
      Some (QueryString.QStr "204").
Proof.
  intros c options.
  exists (rpc_request c DoReferenceTransaction
            [("AMT", str "4.99"); ("INVNUM", str "inv_1");
             ("MSGSUBID", str "inv_10"); ("PAYMENTACTION", str "Sale");
             ("PAYMENTTYPE", str "instant");
             ("REFERENCEID", str "B-1&VERSION=1")]).
  repeat split; reflexivity.
Qed.

(** X8: [baUpdate] posts, to the RPC endpoint and nothing else, a body whose
    fields are [REFERENCEID], read back as the agreement id given, and the
    five protocol fields with [METHOD=BillAgreementUpdate]. *)
Theorem baUpdate_request (c : PayPalClient) (options : BAUpdateOptions)
    (net : Net.network) (log : list Net.request) :
  exists req,
    posted_only req (retries (retryOptions c)) log
      (snd (baUpdate c options net log)) /\
    Net.req_url req = url c /\
    forall k,
      JS.get (QueryString.parse (Net.req_body req)) k =
      JS.get (baUpdate_fields c options) k.
Proof.
  eexists. split; [apply doRequest_posted|]. split; [reflexivity|].
  intros k. rewrite request_body_fields. destruct c, options. read_fields.
Qed.

(** X9: [createBillingAgreement] passes its options object as the data of
    the request: the body carries the token under the lowercase key [token],
    read back as given, and the five protocol fields with
    [METHOD=CreateBillingAgreement]. *)
Theorem createBillingAgreement_request (c : PayPalClient)
    (options : CreateBillingAgreementOptions) (net : Net.network)
    (log : list Net.request) :
  exists req,
    posted_only req (retries (retryOptions c)) log
      (snd (createBillingAgreement c options net log)) /\
    Net.req_url req = url c /\
    forall k,
      JS.get (QueryString.parse (Net.req_body req)) k =
      JS.get (createBillingAgreement_fields c options) k.
Proof.
  eexists. split; [apply doRequest_posted|]. split; [reflexivity|].
  intros k. rewrite request_body_fields. destruct c, options. read_fields.
Qed.

(** X10: [setExpressCheckout] posts, to the RPC endpoint and nothing else, a
    body with the eight fields of a zero-amount authorization (the number
    [NOSHIPPING: 1] written as [1], the placeholder URL as both [CANCELURL]
    and [RETURNURL]) and the five protocol fields with
    [METHOD=SetExpressCheckout]; the credentials, whatever characters they
    hold, change none of the eight. *)
Theorem setExpressCheckout_request (c : PayPalClient) (net : Net.network)
    (log : list Net.request) :
  exists req,
    posted_only req (retries (retryOptions c)) log
      (snd (setExpressCheckout c net log)) /\
    Net.req_url req = url c /\
    forall k,
      JS.get (QueryString.parse (Net.req_body req)) k =
      JS.get (setExpressCheckout_fields c) k.
Proof.
  eexists. split; [apply doRequest_posted|]. split; [reflexivity|].
  intros k. rewrite request_body_fields. destruct c. read_fields.
Qed.

(** ** [isIpnMerchPmt] *)

(** X11: on a decoded notification, [isIpnMerchPmt] holds exactly when the
    body has the field [txn_type] once, with the value [merch_pmt] or
    [mp_cancel]. A body without [txn_type], with another value, or with
    [txn_type] repeated (which decodes to an array) is not a merchant
    payment message. *)
Theorem isIpnMerchPmt_of_decoded (body : string) :
  (isIpnMerchPmt (nvpToObject body) = true <->
   JS.get (QueryString.parse body) "txn_type" =
     Some (QueryString.QStr "merch_pmt") \/
   JS.get (QueryString.parse body) "txn_type" =
     Some (QueryString.QStr "mp_cancel")) /\
  (forall l,
      JS.get (QueryString.parse body) "txn_type" = Some (QueryString.QArr l) ->
      isIpnMerchPmt (nvpToObject body) = false).
Proof.
  assert (JS.get (nvpToObject body) "txn_type" =
          of_parsed <$> JS.get (QueryString.parse body) "txn_type") as Hget.
  { rewrite get_not_L by discriminate.
    apply scalars_get; [reflexivity | discriminate]. }
  unfold isIpnMerchPmt. rewrite Hget.
  destruct (JS.get (QueryString.parse body) "txn_type") as [[t|l]|];
    cbn [fmap option_fmap option_map of_parsed].
  - split; [|discriminate]. cbn [existsb]. rewrite !orb_true_iff, !String.eqb_eq.
    split.
    + intros [<-|[<-|H]]; [auto | auto | discriminate].
    + intros [[= <-]|[= <-]]; auto.
  - split; [|reflexivity].
    split; [discriminate | intros [H|H]; discriminate].
  - split; [|discriminate].
    split; [discriminate | intros [H|H]; discriminate].
Qed.

Lemma isIpnMerchPmt_of_decoded_witness :
  isIpnMerchPmt (nvpToObject "txn_type=mp_cancel&txn_type=merch_pmt&mp_id=B-1")
  = false.
Proof.
  destruct (isIpnMerchPmt_of_decoded
              "txn_type=mp_cancel&txn_type=merch_pmt&mp_id=B-1") as [_ H].
  apply (H ["mp_cancel"; "merch_pmt"]). reflexivity.
Defined.

(** ** The constructor *)

(** X12: a client built from [options] sends its RPC requests to the NVP
    endpoint, and its IPN verifications to the IPN endpoint, of the
    environment the [sandbox] flag selects, never one of each. An RPC call
    posts at most [retries + 1] times, [retries] being the one given in
    [retryOptions] and 3 when it is left out; [ipnVerify] takes no account
    of [retryOptions] and posts at most eleven times. *)
Theorem new_selects_endpoints_and_budget (options : PaypalOptions)
    (method : PAYPAL_METHODS) (data : JS.obj QueryString.value)
    (message : string) (net : Net.network) (log : list Net.request) :
  let c := new options in
  let budget := match opt_retryOptions options with
                | Some given => default 3%nat (opt_retries given)
                | None => 3%nat
                end in
  (url c, ipnUrl c) =
    (if sandbox options
     then ("https://api-3t.sandbox.paypal.com/nvp",
           "https://ipnpb.sandbox.paypal.com/cgi-bin/webscr")
     else ("https://api-3t.paypal.com/nvp",
           "https://ipnpb.paypal.com/cgi-bin/webscr")) /\
  Net.req_url (rpc_request c method data) = url c /\
  posted_only (rpc_request c method data) budget log
    (snd (doRequest c method data net log)) /\
  Net.req_url (verify_request c message) = ipnUrl c /\
  posted_only (verify_request c message) 10 log
    (snd (ipnVerify c message net log)).
Proof.
  intros c budget. split; [|split; [reflexivity|split; [|split]]].
  - subst c. unfold new. cbn [url ipnUrl]. destruct (sandbox options);
      reflexivity.
  - replace budget with (retries (retryOptions c));
      [apply doRequest_posted|].
    subst c budget. unfold new. cbn [retryOptions retries].
    destruct (opt_retryOptions options); reflexivity.
  - reflexivity.
  - destruct (pRetry_post TransportError (ipnUrl c) []
                ("cmd=_notify-validate&" +:+ message)
                Net.pRetry_default_retries net log)
      as [k [Hk [_ [Hlog _]]]].
    exists k. split; [exact Hk | exact Hlog].
Qed.

(** ** The caller's data *)




